(** * Build-argument resolution of GN: [Args] (gn/args.cc)

    A shallow embedding of the [Args] service of gn/args.cc and of the
    collaborators it calls ([Value], [Err], [Settings], [Scope]), followed by
    the properties of override registration, root-scope seeding, declaration,
    the unused-override audit and the two lookup views.

    Conventions.
    - Every method of [Args] is [const] and works on [mutable] members, so a
      method is a function from the [Args] state (and the [Scope] it is
      handed) to the new state.
    - One [std::lock_guard] region is one function application: whatever runs
      while the guard is alive is atomic with respect to other threads.
    - A range-[for] over a [Scope::KeyValueMap], a [std::map] keyed by
      [std::string_view], is a left fold over its [entries], by ascending
      name.  The two tables keyed by [const Settings*] are
      [std::unordered_map]s: a range-[for] over one is a left fold over
      [map_to_list], and no property below depends on the order in which it
      enumerates the toolchains. *)

From Stdlib Require Import ZArith.
From stdpp Require Import base option list strings gmap sorting.

Set Warnings "-register-all".

Open Scope string_scope.

(** ** Origins and values *)

(** [const ParseNode*]: the address of the AST node, [None] for [nullptr]. *)
Definition Origin : Type := option positive.

Definition nullptr : Origin := None.

Inductive Payload (V : Type) : Type :=
  | NONE
  | BOOLEAN (b : bool)
  | INTEGER (z : Z)
  | STRING (s : string)
  | LIST (l : list V)
  | SCOPE (entries : list (string * V)).

Arguments NONE {V}.
Arguments BOOLEAN {V} b.
Arguments INTEGER {V} z.
Arguments STRING {V} s.
Arguments LIST {V} l.
Arguments SCOPE {V} entries.

(** Modelled from the spec: [Value] (gn/value.h is not among the sources), a
    tagged variant over null, bool, integer, string, list and scope snapshot
    that carries the origin it was produced at. *)
Inductive Value : Type :=
  | Val (node : Origin) (data : Payload Value).

Definition origin (v : Value) : Origin :=
  match v with Val node _ => node end.

Definition payload (v : Value) : Payload Value :=
  match v with Val _ data => data end.

Definition set_origin (node : Origin) (v : Value) : Value :=
  Val node (payload v).

(** [Value()] *)
Definition Value_default : Value := Val nullptr NONE.

(** [Value(origin, std::string)] *)
Definition Value_string (node : Origin) (s : string) : Value :=
  Val node (STRING s).

(** [Value(origin, bool)] *)
Definition Value_bool (node : Origin) (b : bool) : Value :=
  Val node (BOOLEAN b).

(** [Value(origin, int64_t)] *)
Definition Value_int (node : Origin) (z : Z) : Value :=
  Val node (INTEGER z).

Abbreviation KeyValueMap := (gmap string Value).

(** ** Diagnostics *)

(** Modelled from the spec: [Err] (gn/err.h is not among the sources): an
    origin, a short title, a long message and the ordered sub-errors.
    [has_error] is false for the default-constructed [Err()]. *)
Inductive Err : Type :=
  | MkErr (has_error : bool) (location : Origin) (message help_text : string)
          (sub_errs : list Err).

Definition Err_default : Err := MkErr false nullptr EmptyString EmptyString [].

(** [Err(node, msg, help)] *)
Definition Err_at (node : Origin) (msg help : string) : Err :=
  MkErr true node msg help [].

Definition AppendSubErr (sub : Err) (e : Err) : Err :=
  match e with
  | MkErr h loc msg help subs => MkErr h loc msg help (subs ++ [sub])%list
  end.

Definition has_error (e : Err) : bool :=
  match e with MkErr h _ _ _ _ => h end.

Definition location (e : Err) : Origin :=
  match e with MkErr _ loc _ _ _ => loc end.

Definition message (e : Err) : string :=
  match e with MkErr _ _ msg _ _ => msg end.

Definition help_text (e : Err) : string :=
  match e with MkErr _ _ _ help _ => help end.

Definition sub_errs (e : Err) : list Err :=
  match e with MkErr _ _ _ _ subs => subs end.

(** The two characters the messages of args.cc escape. *)
Definition DQ : string := String (Ascii.ascii_of_nat 34) EmptyString.
Definition NL : string := String (Ascii.ascii_of_nat 10) EmptyString.

(** ** Settings *)

(** Modelled from the spec: [Settings] (gn/settings.h is not among the
    sources).  [Args] keys its tables by [const Settings*]; [settings_addr] is
    that address, so two instances with the same label are still two keys.
    The label is a string ordered lexicographically. *)
Record Settings : Type := MkSettings {
  settings_addr : positive;
  is_default : bool;
  toolchain_label : string
}.

Global Instance Settings_eq_dec : EqDecision Settings.
Proof. solve_decision. Defined.

Global Instance Settings_countable : Countable Settings.
Proof.
  apply (inj_countable'
    (λ s, (settings_addr s, is_default s, toolchain_label s))
    (λ t, MkSettings t.1.1 t.1.2 t.2)).
  by intros [].
Defined.

Abbreviation ArgumentsPerToolchain := (gmap Settings (gmap string Value)).

(** ** Scope *)

(** Modelled from the spec: [Scope] (gn/scope.h is not among the sources),
    restricted to the local operations [Args] calls: the name to value
    mapping, the set of names marked used and the owning [Settings].  The
    scopes handed to [Args] are writable. *)
Record Scope : Type := MkScope {
  settings : Settings;
  values_ : gmap string Value;
  used_ : gset string
}.

(** [Scope::SetValue(ident, v, set_node)]: insert or replace; the stored value
    carries [set_node] as its origin. *)
Definition SetValue (ident : string) (v : Value) (set_node : Origin)
    (s : Scope) : Scope :=
  MkScope (settings s) (<[ident := set_origin set_node v]> (values_ s)) (used_ s).

(** [Scope::GetValue(ident)] without the used mark. *)
Definition GetValue (ident : string) (s : Scope) : option Value :=
  values_ s !! ident.

(** [Scope::MarkUsed(ident)]: no-op when the name is absent. *)
Definition MarkUsed (ident : string) (s : Scope) : Scope :=
  match values_ s !! ident with
  | Some _ => MkScope (settings s) (values_ s) ({[ident]} ∪ used_ s)
  | None => s
  end.

(** [Scope::GetCurrentScopeValues(out)] *)
Definition GetCurrentScopeValues (s : Scope) : gmap string Value := values_ s.

(** A scope as [TestWithScope] hands it out: nothing set, nothing used. *)
Definition Scope_new (st : Settings) : Scope := MkScope st ∅ ∅.

(** ** The Args state *)

Record Args : Type := MkArgs {
  overrides_ : gmap string Value;
  all_overrides_ : gmap string Value;
  declared_arguments_per_toolchain_ : gmap Settings (gmap string Value);
  toolchain_overrides_ : gmap Settings (gmap string Value)
}.

(** [Args::Args()] *)
Definition Args_new : Args := MkArgs ∅ ∅ ∅ ∅.

(** The order of a [std::map] keyed by [std::string_view]: by name, compared
    character by character. *)
Definition key_le {A : Type} (x y : string * A) : Prop := String.le x.1 y.1.

Global Instance key_le_dec {A : Type} : RelDecision (@key_le A).
Proof. intros x y. unfold key_le. apply _. Defined.

(** The entries of a map in the order a range-[for] visits them; [begin()] is
    the first. *)
Definition entries {A : Type} (m : gmap string A) : list (string * A) :=
  merge_sort key_le (map_to_list m).

(** [m[k]] of a C++ map of maps: the entry, default-constructed when absent.
    [operator[]] also inserts that entry; the callers below write the entry
    they worked on back with [set_declared] or [set_toolchain_overrides]. *)
Definition at_key (k : Settings) (m : gmap Settings (gmap string Value)) :
    gmap string Value :=
  default ∅ (m !! k).

(** [for (const auto& kv : src) dst[kv.first] = kv.second;] *)
Definition assign_all (src dst : gmap string Value) : gmap string Value :=
  foldl (λ acc kv, <[kv.1 := kv.2]> acc) dst (entries src).

Definition AddArgOverride (name : string) (value : Value) (a : Args) : Args :=
  MkArgs (<[name := value]> (overrides_ a))
         (<[name := value]> (all_overrides_ a))
         (declared_arguments_per_toolchain_ a)
         (toolchain_overrides_ a).

Definition AddArgOverrides (overrides : gmap string Value) (a : Args) : Args :=
  foldl (λ acc kv,
           MkArgs (<[kv.1 := kv.2]> (overrides_ acc))
                  (<[kv.1 := kv.2]> (all_overrides_ acc))
                  (declared_arguments_per_toolchain_ acc)
                  (toolchain_overrides_ acc))
        a (entries overrides).

Definition AddDefaultArgOverrides (overrides : gmap string Value) (a : Args) :
    Args :=
  MkArgs (assign_all overrides (overrides_ a))
         (all_overrides_ a)
         (declared_arguments_per_toolchain_ a)
         (toolchain_overrides_ a).

Definition GetArgOverride (name : string) (a : Args) : option Value :=
  all_overrides_ a !! name.

(** ** Toolchain order *)

(** The comparator handed to [std::sort] in [GetSortedToolchainsLocked]. *)
Definition toolchain_less (a b : Settings) : bool :=
  if negb (eqb (is_default a) (is_default b)) then is_default a
  else String.ltb (toolchain_label a) (toolchain_label b).

(** [a] may stand before [b] in a range sorted by [toolchain_less]: [b] is not
    strictly less than [a]. *)
Definition toolchain_le (a b : Settings) : Prop :=
  toolchain_less b a = false.

Global Instance toolchain_le_dec : RelDecision toolchain_le.
Proof. intros a b. unfold toolchain_le. apply _. Defined.

(** [std::sort(first, last, comp)]: a permutation of the range in which no
    element is strictly less than one standing before it.  The order among
    elements the comparator does not separate is unspecified in C++; the
    properties below use only the permutation and the sortedness. *)
Definition std_sort (l : list Settings) : list Settings :=
  merge_sort toolchain_le l.

Definition GetSortedToolchainsLocked (a : Args) : list Settings :=
  std_sort (map_to_list (declared_arguments_per_toolchain_ a)).*1.

(** The toolchain walk of [GetArgFromAllArguments], run under its own
    [lock_guard]. *)
Fixpoint first_declared (name : string) (toolchains : list Settings)
    (declared : gmap Settings (gmap string Value)) : option Value :=
  match toolchains with
  | [] => None
  | toolchain :: rest =>
      match at_key toolchain declared !! name with
      | Some v => Some v
      | None => first_declared name rest declared
      end
  end.

Definition GetArgFromAllArguments_walk (name : string) (a : Args) :
    option Value :=
  first_declared name (GetSortedToolchainsLocked a)
                 (declared_arguments_per_toolchain_ a).

(** [GetArgFromAllArguments] run without interference from other threads. *)
Definition GetArgFromAllArguments (name : string) (a : Args) : option Value :=
  match GetArgOverride name a with
  | Some v => Some v
  | None => GetArgFromAllArguments_walk name a
  end.

(** ** Seeding the root scope *)

(** The operating systems of the [#if] chain of [SetSystemVarsLocked]; any
    other one does not compile. *)
Inductive HostOs : Type :=
  | OS_WIN | OS_MSYS | OS_MACOSX | OS_LINUX | OS_FREEBSD | OS_AIX | OS_OPENBSD
  | OS_HAIKU | OS_SOLARIS | OS_NETBSD | OS_ZOS | OS_SERENITY.

Definition os_name (os : HostOs) : string :=
  match os with
  | OS_WIN | OS_MSYS => "win"
  | OS_MACOSX => "mac"
  | OS_LINUX => "linux"
  | OS_FREEBSD => "freebsd"
  | OS_AIX => "aix"
  | OS_OPENBSD => "openbsd"
  | OS_HAIKU => "haiku"
  | OS_SOLARIS => "solaris"
  | OS_NETBSD => "netbsd"
  | OS_ZOS => "zos"
  | OS_SERENITY => "serenity"
  end.

Definition str_eqb (s t : string) : bool := bool_decide (s = t).

(** The architecture chain of [SetSystemVarsLocked]; [None] is the failing
    [CHECK(false)]. *)
Definition host_arch (os_arch : string) : option string :=
  if str_eqb os_arch "x86" || str_eqb os_arch "BePC" then Some "x86"
  else if str_eqb os_arch "x86_64" then Some "x64"
  else if str_eqb os_arch "aarch64" || str_eqb os_arch "arm64" then Some "arm64"
  else if str_eqb (String.substring 0 3 os_arch) "arm" then Some "arm"
  else if str_eqb os_arch "mips" then Some "mipsel"
  else if str_eqb os_arch "mips64" then Some "mips64el"
  else if str_eqb os_arch "s390x" then Some "s390x"
  else if str_eqb os_arch "ppc64" || str_eqb os_arch "ppc64le" then Some "ppc64"
  else if str_eqb os_arch "riscv32" then Some "riscv32"
  else if str_eqb os_arch "riscv64" then Some "riscv64"
  else if str_eqb os_arch "e2k" then Some "e2k"
  else if str_eqb os_arch "loongarch64" then Some "loong64"
  else None.

(** The machine [Args] runs on: the OS the binary was compiled for and what
    [OperatingSystemArchitecture()] (util/sys_info.h) answers. *)
Record Host : Type := MkHost {
  host_os_type : HostOs;
  host_os_arch : string
}.

(** Modelled from the spec: the names of the six system variables
    (gn/variables.h is not among the sources). *)
Definition kHostOs : string := "host_os".
Definition kTargetOs : string := "target_os".
Definition kCurrentOs : string := "current_os".
Definition kHostCpu : string := "host_cpu".
Definition kTargetCpu : string := "target_cpu".
Definition kCurrentCpu : string := "current_cpu".

Definition system_vars : list string :=
  [kHostOs; kTargetOs; kCurrentOs; kHostCpu; kTargetCpu; kCurrentCpu].

Definition set_declared (k : Settings) (m : gmap string Value) (a : Args) :
    Args :=
  MkArgs (overrides_ a) (all_overrides_ a)
         (<[k := m]> (declared_arguments_per_toolchain_ a))
         (toolchain_overrides_ a).

Definition DeclaredArgumentsForToolchainLocked (scope : Scope) (a : Args) :
    gmap string Value :=
  at_key (settings scope) (declared_arguments_per_toolchain_ a).

Definition OverridesForToolchainLocked (scope : Scope) (a : Args) :
    gmap string Value :=
  at_key (settings scope) (toolchain_overrides_ a).

Definition SetSystemVarsLocked (h : Host) (dest : Scope) (a : Args) :
    option (Args * Scope) :=
  let os := os_name (host_os_type h) in
  match host_arch (host_os_arch h) with
  | None => None
  | Some arch =>
      let empty_string := Value_string nullptr EmptyString in
      let os_val := Value_string nullptr os in
      let dest := SetValue kHostOs os_val nullptr dest in
      let dest := SetValue kTargetOs empty_string nullptr dest in
      let dest := SetValue kCurrentOs empty_string nullptr dest in
      let arch_val := Value_string nullptr arch in
      let dest := SetValue kHostCpu arch_val nullptr dest in
      let dest := SetValue kTargetCpu empty_string nullptr dest in
      let dest := SetValue kCurrentCpu empty_string nullptr dest in
      let declared_arguments := DeclaredArgumentsForToolchainLocked dest a in
      let declared_arguments := <[kHostOs := os_val]> declared_arguments in
      let declared_arguments := <[kCurrentOs := empty_string]> declared_arguments in
      let declared_arguments := <[kTargetOs := empty_string]> declared_arguments in
      let declared_arguments := <[kHostCpu := arch_val]> declared_arguments in
      let declared_arguments := <[kCurrentCpu := empty_string]> declared_arguments in
      let declared_arguments := <[kTargetCpu := empty_string]> declared_arguments in
      let a := set_declared (settings dest) declared_arguments a in
      let dest := MarkUsed kHostCpu dest in
      let dest := MarkUsed kCurrentCpu dest in
      let dest := MarkUsed kTargetCpu dest in
      let dest := MarkUsed kHostOs dest in
      let dest := MarkUsed kCurrentOs dest in
      let dest := MarkUsed kTargetOs dest in
      Some (a, dest)
  end.

(** Only set a value if it has been declared. *)
Definition ApplyOverridesLocked (values : gmap string Value) (scope : Scope)
    (a : Args) : Args * Scope :=
  let declared_arguments := DeclaredArgumentsForToolchainLocked scope a in
  (set_declared (settings scope) declared_arguments a,
   foldl (λ sc val,
            match declared_arguments !! val.1 with
            | None => sc
            | Some _ => SetValue val.1 val.2 (origin val.2) sc
            end)
         scope (entries values)).

Definition SaveOverrideRecordLocked (values : gmap string Value) (a : Args) :
    Args :=
  MkArgs (overrides_ a)
         (assign_all values (all_overrides_ a))
         (declared_arguments_per_toolchain_ a)
         (toolchain_overrides_ a).

Definition set_toolchain_overrides (k : Settings) (m : gmap string Value)
    (a : Args) : Args :=
  MkArgs (overrides_ a) (all_overrides_ a)
         (declared_arguments_per_toolchain_ a)
         (<[k := m]> (toolchain_overrides_ a)).

Definition SetupRootScope (h : Host) (dest : Scope)
    (toolchain_overrides : gmap string Value) (a : Args) :
    option (Args * Scope) :=
  match SetSystemVarsLocked h dest a with
  | None => None
  | Some (a, dest) =>
      let '(a, dest) := ApplyOverridesLocked (overrides_ a) dest a in
      let '(a, dest) := ApplyOverridesLocked toolchain_overrides dest a in
      let a := set_toolchain_overrides (settings dest) toolchain_overrides a in
      Some (SaveOverrideRecordLocked toolchain_overrides a, dest)
  end.

(** ** Declaration *)

Definition kDuplicateTitle : string := "Duplicate build argument declaration.".

Definition kDuplicateHelp : string :=
  "Here you're declaring an argument that was already declared " +:+
  "elsewhere." +:+ NL +:+
  "You can only declare each argument once in the entire " +:+
  "build so there is one" +:+ NL +:+
  "canonical place for documentation and the " +:+
  "default value. Either move this" +:+ NL +:+
  "argument to the build config " +:+
  "file (for visibility everywhere) or to a .gni file" +:+ NL +:+
  "that you " +:+ DQ +:+ "import" +:+ DQ +:+
  " from the files where you need it (preferred).".

Definition kPreviousTitle : string := "Previous declaration.".

Definition kPreviousHelp : string :=
  "See also " +:+ DQ +:+ "gn help buildargs" +:+ DQ +:+ " for more on how " +:+
  "build arguments work.".

(** The error of a declaration location mismatch. *)
Definition DuplicateDeclarationErr (new_origin previous_origin : Origin) : Err :=
  AppendSubErr (Err_at previous_origin kPreviousTitle kPreviousHelp)
               (Err_at new_origin kDuplicateTitle kDuplicateHelp).

(** What one call leaves behind: the return value, the declared arguments of
    the scope's toolchain, the scope and [*err]. *)
Record DeclareResult : Type := MkDeclareResult {
  declare_ok : bool;
  declare_declared : gmap string Value;
  declare_scope : Scope;
  declare_err : Err
}.

(** The body of the [for] loop of [DeclareArgs] over the entries still to be
    visited. *)
Fixpoint DeclareArgs_loop (args : list (string * Value))
    (toolchain_overrides overrides : gmap string Value)
    (declared_arguments : gmap string Value) (scope_to_set : Scope)
    (err : Err) : DeclareResult :=
  match args with
  | [] => MkDeclareResult true declared_arguments scope_to_set err
  | arg :: rest =>
      let visit declared_arguments :=
        match toolchain_overrides !! arg.1 with
        | Some toolchain_override =>
            let scope_to_set :=
              SetValue arg.1 toolchain_override (origin toolchain_override)
                       scope_to_set in
            let scope_to_set := MarkUsed arg.1 scope_to_set in
            DeclareArgs_loop rest toolchain_overrides overrides
                             declared_arguments scope_to_set err
        | None =>
            match overrides !! arg.1 with
            | Some override =>
                let scope_to_set :=
                  SetValue arg.1 override (origin override) scope_to_set in
                let scope_to_set := MarkUsed arg.1 scope_to_set in
                DeclareArgs_loop rest toolchain_overrides overrides
                                 declared_arguments scope_to_set err
            | None =>
                let scope_to_set :=
                  SetValue arg.1 arg.2 (origin arg.2) scope_to_set in
                let scope_to_set := MarkUsed arg.1 scope_to_set in
                DeclareArgs_loop rest toolchain_overrides overrides
                                 declared_arguments scope_to_set err
            end
        end in
      match declared_arguments !! arg.1 with
      | Some previously_declared =>
          if bool_decide (origin previously_declared ≠ origin arg.2) then
            MkDeclareResult false declared_arguments scope_to_set
              (DuplicateDeclarationErr (origin arg.2)
                                       (origin previously_declared))
          else visit declared_arguments
      | None => visit (<[arg.1 := arg.2]> declared_arguments)
      end
  end.

(** What [DeclareArgs(args, scope_to_set, err)] returns and leaves behind. *)
Record DeclareArgsResult : Type := MkDeclareArgsResult {
  result_ok : bool;
  result_err : Err;
  result_args : Args;
  result_scope : Scope
}.

Definition DeclareArgs (args : gmap string Value) (scope_to_set : Scope)
    (err : Err) (a : Args) : DeclareArgsResult :=
  let declared_arguments := DeclaredArgumentsForToolchainLocked scope_to_set a in
  let toolchain_overrides := OverridesForToolchainLocked scope_to_set a in
  let r := DeclareArgs_loop (entries args) toolchain_overrides
                            (overrides_ a) declared_arguments scope_to_set err in
  MkDeclareArgsResult (declare_ok r) (declare_err r)
    (set_toolchain_overrides (settings scope_to_set) toolchain_overrides
       (set_declared (settings scope_to_set) (declare_declared r) a))
    (declare_scope r).

(** ** The unused-override audit *)

(** Removes all entries in [overrides] that are in [declared_arguments]. *)
Definition RemoveDeclaredOverrides (declared_arguments overrides :
    gmap string Value) : gmap string Value :=
  foldl (λ acc override,
           match declared_arguments !! override.1 with
           | None => acc
           | Some _ => delete override.1 acc
           end)
        overrides (entries overrides).

Definition kUnusedTitle : string := "Build argument has no effect.".

Definition UnusedHelp (name : string) : string :=
  "The variable " +:+ DQ +:+ name +:+ DQ +:+
  " was set as a build argument" +:+ NL +:+
  "but never appeared in a declare_args() block in any buildfile." +:+
  NL +:+ NL +:+
  "To view all possible args, run " +:+ DQ +:+
  "gn args --list <out_dir>" +:+ DQ.

Definition unused_overrides_of (a : Args) : gmap string Value :=
  foldl (λ unused map_pair, RemoveDeclaredOverrides map_pair.2 unused)
        (all_overrides_ a)
        (map_to_list (declared_arguments_per_toolchain_ a)).

Definition spelling_candidates (a : Args) : list string :=
  foldl (λ candidates map_pair, (candidates ++ (entries map_pair.2).*1)%list)
        [] (map_to_list (declared_arguments_per_toolchain_ a)).

(** [VerifyAllOverridesUsed(err)]: the return value and [*err].
    [SpellcheckString] (gn/string_utils.h) is not among the sources and is
    taken as given. *)
Definition VerifyAllOverridesUsed
    (SpellcheckString : string → list string → string)
    (err : Err) (a : Args) : bool * Err :=
  let unused_overrides := unused_overrides_of a in
  match entries unused_overrides with
  | [] => (true, err)
  | (name, value) :: _ =>
      let err_help := UnusedHelp name in
      let suggestion := SpellcheckString name (spelling_candidates a) in
      let err_help :=
        if bool_decide (suggestion = EmptyString) then err_help
        else "Did you mean " +:+ DQ +:+ suggestion +:+ DQ +:+ "?" +:+
             NL +:+ NL +:+ err_help in
      (false, Err_at (origin value) kUnusedTitle err_help)
  end.

(** ** The bulk view *)

Record ValueWithOverride : Type := MkValueWithOverride {
  default_value : Value;
  has_override : bool;
  override_value : Value
}.

(** [ValueWithOverride(def_val)] *)
Definition ValueWithOverride_of (def_val : Value) : ValueWithOverride :=
  MkValueWithOverride def_val false Value_default.

(** [result.insert(std::make_pair(k, v))]: keeps an entry already there. *)
Definition map_insert_new {A} (k : string) (v : A) (m : gmap string A) :
    gmap string A :=
  match m !! k with
  | Some _ => m
  | None => <[k := v]> m
  end.

Definition GetAllArguments_defaults (toolchains : list Settings)
    (declared : gmap Settings (gmap string Value)) :
    gmap string ValueWithOverride :=
  foldl (λ result toolchain,
           foldl (λ result arg,
                    map_insert_new arg.1 (ValueWithOverride_of arg.2) result)
                 result (entries (at_key toolchain declared)))
        ∅ toolchains.

Definition GetAllArguments_merge (overrides : gmap string Value)
    (result : gmap string ValueWithOverride) : gmap string ValueWithOverride :=
  foldl (λ result over,
           match result !! over.1 with
           | Some found =>
               <[over.1 := MkValueWithOverride (default_value found) true over.2]>
                 result
           | None => result
           end)
        result (entries overrides).

Definition GetAllArguments (a : Args) : gmap string ValueWithOverride :=
  let toolchains := GetSortedToolchainsLocked a in
  let result :=
    GetAllArguments_defaults toolchains (declared_arguments_per_toolchain_ a) in
  GetAllArguments_merge (overrides_ a) result.

(** ** The two lock regions of [GetArgFromAllArguments] *)

(** [GetArgFromAllArguments] holds [lock_] twice: inside [GetArgOverride],
    whose guard dies when it returns, and then for the toolchain walk.
    [between] is what other threads do to the state while the lock is free
    between the two regions. *)
Definition GetArgFromAllArguments_interleaved (name : string)
    (between : Args → Args) (a : Args) : option Value :=
  match GetArgOverride name a with
  | Some v => Some v
  | None => GetArgFromAllArguments_walk name (between a)
  end.

(** ** Histories of calls *)

(** The public mutating operations of [Args], with their arguments. *)
Inductive ArgsCall : Type :=
  | Call_AddArgOverride (name : string) (value : Value)
  | Call_AddArgOverrides (overrides : gmap string Value)
  | Call_AddDefaultArgOverrides (overrides : gmap string Value)
  | Call_SetupRootScope (dest : Scope) (toolchain_overrides : gmap string Value)
  | Call_DeclareArgs (args : gmap string Value) (scope_to_set : Scope)
                     (err : Err).

(** The [Args] state one call leaves; [None] when the process dies in the
    [CHECK] of [SetSystemVarsLocked]. *)
Definition run_call (h : Host) (c : ArgsCall) (a : Args) : option Args :=
  match c with
  | Call_AddArgOverride name value => Some (AddArgOverride name value a)
  | Call_AddArgOverrides overrides => Some (AddArgOverrides overrides a)
  | Call_AddDefaultArgOverrides overrides =>
      Some (AddDefaultArgOverrides overrides a)
  | Call_SetupRootScope dest toolchain_overrides =>
      fst <$> SetupRootScope h dest toolchain_overrides a
  | Call_DeclareArgs args scope_to_set err =>
      Some (result_args (DeclareArgs args scope_to_set err a))
  end.

Fixpoint run_calls (h : Host) (cs : list ArgsCall) (a : Args) : option Args :=
  match cs with
  | [] => Some a
  | c :: cs =>
      match run_call h c a with
      | Some a' => run_calls h cs a'
      | None => None
      end
  end.

(** The names a call registers through [AddArgOverride] or
    [AddArgOverrides]. *)
Definition command_names_of (c : ArgsCall) : gset string :=
  match c with
  | Call_AddArgOverride name _ => {[name]}
  | Call_AddArgOverrides overrides => dom overrides
  | _ => ∅
  end.

(** The names a call registers through [AddDefaultArgOverrides]. *)
Definition default_names_of (c : ArgsCall) : gset string :=
  match c with
  | Call_AddDefaultArgOverrides overrides => dom overrides
  | _ => ∅
  end.

(** The names a call passes as toolchain overrides to [SetupRootScope]. *)
Definition toolchain_names_of (c : ArgsCall) : gset string :=
  match c with
  | Call_SetupRootScope _ toolchain_overrides => dom toolchain_overrides
  | _ => ∅
  end.

Definition command_names (cs : list ArgsCall) : gset string :=
  ⋃ (command_names_of <$> cs).

Definition default_names (cs : list ArgsCall) : gset string :=
  ⋃ (default_names_of <$> cs).

Definition toolchain_names (cs : list ArgsCall) : gset string :=
  ⋃ (toolchain_names_of <$> cs).

(** ** Notions the properties are stated with *)

(** The value the specification asks [DeclareArgs] to write for a declared
    [name] with default [value]: the toolchain override, else the global
    override, else the default. *)
Definition effective_value (toolchain_overrides overrides : gmap string Value)
    (name : string) (value : Value) : Value :=
  match toolchain_overrides !! name with
  | Some v => v
  | None => match overrides !! name with Some v => v | None => value end
  end.

Definition write_effective (toolchain_overrides overrides : gmap string Value)
    (name : string) (value : Value) (scope : Scope) : Scope :=
  let e := effective_value toolchain_overrides overrides name value in
  MarkUsed name (SetValue name e (origin e) scope).

(** [name] is declared in [declared] at another place than [value]. *)
Definition declared_elsewhere (declared : gmap string Value) (name : string)
    (value : Value) : Prop :=
  ∃ prev, declared !! name = Some prev ∧ origin prev ≠ origin value.

(** The value [SetSystemVarsLocked] seeds for [name], if it is one of the six
    system variables. *)
Definition system_value (h : Host) (arch : string) (name : string) :
    option Value :=
  if decide (name = kHostOs) then
    Some (Value_string nullptr (os_name (host_os_type h)))
  else if decide (name = kHostCpu) then Some (Value_string nullptr arch)
  else if decide (name ∈ system_vars) then
    Some (Value_string nullptr EmptyString)
  else None.

(** What "earliest in the sorted order" means for the toolchain [t] that
    answers: a default toolchain wins over a non-default one, and among
    toolchains of the same kind no label is smaller. *)
Definition earliest_declaring (name : string) (t : Settings) (a : Args) : Prop :=
  ∀ t' m', declared_arguments_per_toolchain_ a !! t' = Some m' →
           is_Some (m' !! name) →
           (is_default t' = true → is_default t = true) ∧
           (is_default t' = is_default t →
            String.ltb (toolchain_label t') (toolchain_label t) = false).

(** [name] is declared for at least one toolchain. *)
Definition declared_somewhere (a : Args) (name : string) : Prop :=
  ∃ t m, declared_arguments_per_toolchain_ a !! t = Some m ∧ is_Some (m !! name).

(** ** Concrete hosts, toolchains and states *)

Definition host_linux_x64 : Host := MkHost OS_LINUX "x86_64".

Definition settings_default : Settings := MkSettings 1 true EmptyString.

Definition settings_1 : Settings := MkSettings 1 true "//toolchain:default".
Definition settings_2 : Settings := MkSettings 2 true "//toolchain:default".

Definition no_spellcheck (name : string) (candidates : list string) : string :=
  EmptyString.

Definition history_c2 : list ArgsCall :=
  [Call_AddDefaultArgOverrides {["a" := Value_int nullptr 1]};
   Call_AddArgOverride "b" (Value_int nullptr 2)].

Definition defaults_s6 : gmap string Value :=
  <["a" := Value_int nullptr 1]> {["b" := Value_int nullptr 2]}.

(** The state and scope of the [VerifyOverrideScope] test before its
    [DeclareArgs]. *)
Definition args_s2 : Args :=
  AddArgOverride "current_os" (Value_string nullptr "theiros")
    (AddArgOverride "a" (Value_string nullptr "avalue") Args_new).

Definition toolchain_overrides_s2 : gmap string Value :=
  <["b" := Value_string nullptr "bvalue"]>
    {["current_os" := Value_string nullptr "myos"]}.

Definition declared_s2 : gmap string Value :=
  <["a" := Value_string nullptr "avalue2"]>
    (<["b" := Value_string nullptr "bvalue2"]>
       {["c" := Value_string nullptr "cvalue2"]}).

Definition setup_s2 : Args * Scope :=
  default (args_s2, Scope_new settings_default)
    (SetupRootScope host_linux_x64 (Scope_new settings_default)
                    toolchain_overrides_s2 args_s2).

(** A toolchain whose argument [a] was declared before its root scope is set
    up. *)
Definition history_c1 : list ArgsCall :=
  [Call_DeclareArgs {["a" := Value_string (Some 7%positive) "adefault"]}
                    (Scope_new settings_default) Err_default;
   Call_AddArgOverride "a" (Value_string nullptr "avalue")].

Definition args_c1 : Args :=
  default Args_new (run_calls host_linux_x64 history_c1 Args_new).

(** Another thread sets up the root scope of a toolchain whose
    [toolchain_args] override [current_os]. *)
Definition other_thread_setup : ArgsCall :=
  Call_SetupRootScope (Scope_new settings_default)
                      {["current_os" := Value_string nullptr "myos"]}.

Definition other_thread (a : Args) : Args :=
  default a (run_call host_linux_x64 other_thread_setup a).

(** [ArgsTest.VerifyAllOverridesUsed] up to its three audits. *)
Definition args_unittest_declared : Args :=
  let map1 : gmap string Value :=
    GetCurrentScopeValues
      (SetValue "a" (Value_bool nullptr true) (Some 11%positive)
                (Scope_new settings_1)) in
  let map2 : gmap string Value :=
    GetCurrentScopeValues
      (SetValue "b" (Value_bool nullptr true) (Some 12%positive)
                (Scope_new settings_2)) in
  let a := result_args
             (DeclareArgs map1 (Scope_new settings_1) Err_default Args_new) in
  result_args (DeclareArgs map2 (Scope_new settings_2) Err_default a).

(** A toolchain whose [toolchain_args] override [b] and [current_os], and
    that then declares [a], [b] and [c]; nothing is overridden globally. *)
Definition setup_c10 : Args * Scope :=
  default (Args_new, Scope_new settings_default)
    (SetupRootScope host_linux_x64 (Scope_new settings_default)
                    toolchain_overrides_s2 Args_new).

Definition history_c10 : list ArgsCall :=
  [Call_SetupRootScope (Scope_new settings_default) toolchain_overrides_s2;
   Call_DeclareArgs declared_s2 setup_c10.2 Err_default].

Definition args_c10 : Args :=
  default Args_new (run_calls host_linux_x64 history_c10 Args_new).

(** What [GetAllArguments] reports for [b] in that state. *)
Definition entry_c10 : ValueWithOverride :=
  default (ValueWithOverride_of Value_default) (GetAllArguments args_c10 !! "b").

(** ** Names and states for the further properties *)

Definition host_cpu_names : list string :=
  ["x86"; "x64"; "arm"; "arm64"; "mipsel"; "mips64el"; "s390x"; "ppc64";
   "riscv32"; "riscv64"; "e2k"; "loong64"].

Definition host_os_names : list string :=
  ["win"; "mac"; "linux"; "freebsd"; "aix"; "openbsd"; "haiku"; "solaris";
   "netbsd"; "zos"; "serenity"].

Definition args_unittest_c : Args :=
  AddArgOverride "c" (Value_bool nullptr true) args_unittest_declared.

Definition args_default_c : Args :=
  AddDefaultArgOverrides {["c" := Value_string nullptr "cdefault"]} args_c10.

(** Two names declared for one toolchain and two undeclared names
    overridden, at different places. *)
Definition args_key_order : Args :=
  AddArgOverride "zz" (Value_bool (Some 5%positive) true)
    (AddArgOverride "b" (Value_bool (Some 4%positive) true)
       (result_args
          (DeclareArgs (<["c" := Value_default]> {["a" := Value_default]})
                       (Scope_new settings_1) Err_default Args_new))).

(** A spelling helper that proposes the first candidate. *)
Definition first_candidate (name : string) (candidates : list string) : string :=
  default EmptyString (head candidates).

(** ** JSONValueConverter (base/json/json_value_converter.h) *)

(** [base::Value], [ListValue] and [DictionaryValue] (base/values.h) are not
    among the sources; the converters use these operations of theirs, taken
    as given.  A [ListValue] is read as the list of its elements: [GetSize()]
    is its length and [Get(i, &out)] its lookup.  [DictionaryGet] is
    [DictionaryValue::Get(path, &out)]. *)
Class BaseValues : Type := MkBaseValues {
  BaseValue : Type;
  DictionaryValue : Type;
  GetAsString : BaseValue → option string;
  GetAsList : BaseValue → option (list BaseValue);
  GetAsDictionary : BaseValue → option DictionaryValue;
  DictionaryGet : DictionaryValue → string → option BaseValue
}.

(** [ValueConverter<FieldType>::Convert(value, field)]: whether it succeeded,
    and what it left in [*field]. *)
Definition ValueConverter `{BaseValues} (FieldType : Type) : Type :=
  BaseValue → FieldType → bool * FieldType.

(** [FieldType StructType::*], a pointer to a member: how to read the member
    of a struct and how to write it. *)
Record MemberPointer (StructType FieldType : Type) : Type := MkMemberPointer {
  member_get : StructType → FieldType;
  member_set : FieldType → StructType → StructType
}.

Arguments member_get {StructType FieldType} _ _.
Arguments member_set {StructType FieldType} _ _ _.

(** [FieldConverterBase<StructType>] *)
Record FieldConverterBase `{BaseValues} (StructType : Type) : Type :=
  MkFieldConverterBase {
    field_path : string;
    ConvertField : BaseValue → StructType → bool * StructType
  }.

Arguments field_path {_ StructType} _.
Arguments ConvertField {_ StructType} _ _ _.

(** [FieldConverter<StructType, FieldType>(path, field, converter)]:
    [ConvertField(value, dst)] is
    [value_converter_->Convert(value, &(dst->*field_pointer_))]. *)
Definition FieldConverter `{BaseValues} {StructType FieldType : Type}
    (path : string) (field : MemberPointer StructType FieldType)
    (converter : ValueConverter FieldType) : FieldConverterBase StructType :=
  MkFieldConverterBase _ StructType path
    (λ value dst,
       let r := converter value (member_get field dst) in
       (r.1, member_set field r.2 dst)).

(** [ValueFieldConverter<FieldType>(convert_func)] *)
Definition ValueFieldConverter `{BaseValues} {FieldType : Type}
    (convert_func : BaseValue → FieldType → bool * FieldType) :
    ValueConverter FieldType :=
  λ value field, convert_func value field.

(** [CustomFieldConverter<FieldType>(convert_func)]:
    [value.GetAsString(&string_value) && convert_func_(string_value, field)]. *)
Definition CustomFieldConverter `{BaseValues} {FieldType : Type}
    (convert_func : string → FieldType → bool * FieldType) :
    ValueConverter FieldType :=
  λ value field,
    match GetAsString value with
    | Some string_value => convert_func string_value field
    | None => (false, field)
    end.

(** [JSONValueConverter<StructType>]: its [fields_], in registration order. *)
Definition JSONValueConverter `{BaseValues} (StructType : Type) : Type :=
  list (FieldConverterBase StructType).

(** The [for] loop of [JSONValueConverter::Convert] over the fields still to
    be visited. *)
Fixpoint JSONValueConverter_loop `{BaseValues} {StructType : Type}
    (fields : list (FieldConverterBase StructType))
    (dictionary_value : DictionaryValue) (output : StructType) :
    bool * StructType :=
  match fields with
  | [] => (true, output)
  | field_converter :: rest =>
      match DictionaryGet dictionary_value (field_path field_converter) with
      | Some field =>
          let r := ConvertField field_converter field output in
          if r.1 then JSONValueConverter_loop rest dictionary_value r.2
          else (false, r.2)
      | None => JSONValueConverter_loop rest dictionary_value output
      end
  end.

(** [JSONValueConverter::Convert(value, output)] *)
Definition JSONValueConverter_Convert `{BaseValues} {StructType : Type}
    (fields_ : JSONValueConverter StructType) (value : BaseValue)
    (output : StructType) : bool * StructType :=
  match GetAsDictionary value with
  | None => (false, output)
  | Some dictionary_value =>
      JSONValueConverter_loop fields_ dictionary_value output
  end.

(** [NestedValueConverter<NestedType>], holding the converter of the nested
    type. *)
Definition NestedValueConverter `{BaseValues} {NestedType : Type}
    (converter_ : JSONValueConverter NestedType) : ValueConverter NestedType :=
  λ value field, JSONValueConverter_Convert converter_ value field.

(** The [for] loop shared by [RepeatedValueConverter::Convert],
    [RepeatedMessageConverter::Convert] and
    [RepeatedCustomValueConverter::Convert] over the indices still to be
    visited; [new_element] is [new Element] and [convert] what the loop calls
    on it. *)
Fixpoint Repeated_loop `{BaseValues} {Element : Type} (new_element : Element)
    (convert : BaseValue → Element → bool * Element)
    (list_value : list BaseValue) (indices : list nat) (field : list Element) :
    bool * list Element :=
  match indices with
  | [] => (true, field)
  | i :: rest =>
      match list_value !! i with
      | None => Repeated_loop new_element convert list_value rest field
      | Some element =>
          let r := convert element new_element in
          if r.1 then
            Repeated_loop new_element convert list_value rest
                          (field ++ [r.2])%list
          else (false, field)
      end
  end.

Definition Repeated_Convert `{BaseValues} {Element : Type}
    (new_element : Element)
    (convert : BaseValue → Element → bool * Element)
    (value : BaseValue) (field : list Element) : bool * list Element :=
  match GetAsList value with
  | None => (false, field)
  | Some list_value =>
      Repeated_loop new_element convert list_value
                    (seq 0 (length list_value)) field
  end.

(** [RepeatedValueConverter<Element>]; [basic_converter_] is the
    [BasicValueConverter<Element>] of the element type, whose [Convert] is
    defined outside the header. *)
Definition RepeatedValueConverter `{BaseValues} {Element : Type}
    (new_element : Element) (basic_converter_ : ValueConverter Element) :
    ValueConverter (list Element) :=
  Repeated_Convert new_element basic_converter_.

(** [RepeatedMessageConverter<NestedType>] *)
Definition RepeatedMessageConverter `{BaseValues} {NestedType : Type}
    (new_element : NestedType) (converter_ : JSONValueConverter NestedType) :
    ValueConverter (list NestedType) :=
  Repeated_Convert new_element (JSONValueConverter_Convert converter_).

(** [RepeatedCustomValueConverter<NestedType>(convert_func)] *)
Definition RepeatedCustomValueConverter `{BaseValues} {NestedType : Type}
    (new_element : NestedType)
    (convert_func : BaseValue → NestedType → bool * NestedType) :
    ValueConverter (list NestedType) :=
  Repeated_Convert new_element convert_func.

(** The [Register...] methods: each appends one [FieldConverter] to
    [fields_]. *)
Definition RegisterField `{BaseValues} {StructType FieldType : Type}
    (field_name : string) (field : MemberPointer StructType FieldType)
    (converter : ValueConverter FieldType)
    (fields_ : JSONValueConverter StructType) : JSONValueConverter StructType :=
  (fields_ ++ [FieldConverter field_name field converter])%list.

Definition RegisterCustomField `{BaseValues} {StructType FieldType : Type}
    (field_name : string) (field : MemberPointer StructType FieldType)
    (convert_func : string → FieldType → bool * FieldType)
    (fields_ : JSONValueConverter StructType) : JSONValueConverter StructType :=
  RegisterField field_name field (CustomFieldConverter convert_func) fields_.

Definition RegisterCustomValueField `{BaseValues} {StructType FieldType : Type}
    (field_name : string) (field : MemberPointer StructType FieldType)
    (convert_func : BaseValue → FieldType → bool * FieldType)
    (fields_ : JSONValueConverter StructType) : JSONValueConverter StructType :=
  RegisterField field_name field (ValueFieldConverter convert_func) fields_.

Definition RegisterNestedField `{BaseValues} {StructType NestedType : Type}
    (field_name : string) (field : MemberPointer StructType NestedType)
    (nested : JSONValueConverter NestedType)
    (fields_ : JSONValueConverter StructType) : JSONValueConverter StructType :=
  RegisterField field_name field (NestedValueConverter nested) fields_.

Definition RegisterRepeatedMessage `{BaseValues} {StructType NestedType : Type}
    (field_name : string) (field : MemberPointer StructType (list NestedType))
    (new_element : NestedType) (nested : JSONValueConverter NestedType)
    (fields_ : JSONValueConverter StructType) : JSONValueConverter StructType :=
  RegisterField field_name field
                (RepeatedMessageConverter new_element nested) fields_.

Definition RegisterRepeatedCustomValue `{BaseValues}
    {StructType NestedType : Type}
    (field_name : string) (field : MemberPointer StructType (list NestedType))
    (new_element : NestedType)
    (convert_func : BaseValue → NestedType → bool * NestedType)
    (fields_ : JSONValueConverter StructType) : JSONValueConverter StructType :=
  RegisterField field_name field
                (RepeatedCustomValueConverter new_element convert_func) fields_.

(** What the loops of the repeated converters do, element by element. *)
Fixpoint convert_elements `{BaseValues} {Element : Type} (new_element : Element)
    (convert : BaseValue → Element → bool * Element)
    (elements : list BaseValue) (field : list Element) : bool * list Element :=
  match elements with
  | [] => (true, field)
  | element :: rest =>
      let r := convert element new_element in
      if r.1 then convert_elements new_element convert rest (field ++ [r.2])%list
      else (false, field)
  end.

(** A small tree of JSON values with flat dictionaries, for examples. *)
Inductive Json : Type :=
  | JNull
  | JInt (z : Z)
  | JString (s : string)
  | JList (l : list Json)
  | JDict (d : list (string * Json)).

Fixpoint Json_assoc (d : list (string * Json)) (key : string) : option Json :=
  match d with
  | [] => None
  | (k, v) :: rest => if bool_decide (k = key) then Some v else Json_assoc rest key
  end.

Definition Json_values : BaseValues :=
  MkBaseValues Json (list (string * Json))
    (λ v, match v with JString s => Some s | _ => None end)
    (λ v, match v with JList l => Some l | _ => None end)
    (λ v, match v with JDict d => Some d | _ => None end)
    Json_assoc.

(** The [Message] struct of the header's usage comment: [int foo] and
    [std::string bar]. *)
Record Message : Type := MkMessage { foo : Z; bar : string }.

Definition Message_foo : MemberPointer Message Z :=
  MkMemberPointer _ _ foo (λ z m, MkMessage z (bar m)).

Definition Message_bar : MemberPointer Message string :=
  MkMemberPointer _ _ bar (λ s m, MkMessage (foo m) s).

Definition Json_int : @ValueConverter Json_values Z :=
  λ value field, match value with JInt z => (true, z) | _ => (false, field) end.

Definition Json_string : @ValueConverter Json_values string :=
  λ value field,
    match value with JString s => (true, s) | _ => (false, field) end.

Definition Message_converter : @JSONValueConverter Json_values Message :=
  @RegisterField Json_values _ _ "bar" Message_bar Json_string
    (@RegisterField Json_values _ _ "foo" Message_foo Json_int []).

(** * Properties *)

(** ** Loops over maps *)

Global Instance key_le_trans {A : Type} : Transitive (@key_le A).
Proof. intros x y z. unfold key_le. apply transitivity. Qed.

Global Instance key_le_total {A : Type} : Total (@key_le A).
Proof. intros x y. unfold key_le. apply total, _. Qed.

Lemma entries_Permutation {A} (m : gmap string A) : entries m ≡ₚ map_to_list m.
Proof. apply merge_sort_Permutation. Qed.

Lemma entries_sorted {A} (m : gmap string A) :
  StronglySorted key_le (entries m).
Proof. apply (StronglySorted_merge_sort _). Qed.

Lemma NoDup_fst_entries {A} (m : gmap string A) : NoDup (entries m).*1.
Proof. rewrite entries_Permutation. apply NoDup_fst_map_to_list. Qed.

Lemma elem_of_entries {A} (m : gmap string A) (k : string) (v : A) :
  (k, v) ∈ entries m ↔ m !! k = Some v.
Proof. rewrite entries_Permutation. apply elem_of_map_to_list. Qed.

Lemma list_to_map_entries {A} (m : gmap string A) :
  list_to_map (entries m) = m.
Proof.
  rewrite <-(list_to_map_to_list m) at 2.
  apply list_to_map_proper; [apply NoDup_fst_entries|apply entries_Permutation].
Qed.

Lemma entries_empty {A} : entries (∅ : gmap string A) = [].
Proof. unfold entries. by rewrite map_to_list_empty. Qed.

Lemma entries_nil_inv {A} (m : gmap string A) : entries m = [] → m = ∅.
Proof.
  intros Hnil. apply map_to_list_empty_iff, Permutation_nil_r.
  by rewrite <-entries_Permutation, Hnil.
Qed.

Lemma set_origin_origin (v : Value) : set_origin (origin v) v = v.
Proof. by destruct v. Qed.

Lemma origin_set_origin (node : Origin) (v : Value) :
  origin (set_origin node v) = node.
Proof. done. Qed.

Section folds.
Context {A : Type}.
Implicit Types (l : list (string * A)) (m acc : gmap string A).

Lemma foldl_insert_union l acc :
  NoDup l.*1 →
  foldl (λ acc kv, <[kv.1 := kv.2]> acc) acc l = list_to_map l ∪ acc.
Proof.
  revert acc. induction l as [|[k v] l IH]; intros acc Hnd; simpl.
  - by rewrite (left_id_L ∅ (∪)).
  - inversion_clear Hnd as [|?? Hk Hl].
    rewrite IH by done. rewrite <-insert_union_r, insert_union_l; [done|].
    by apply not_elem_of_list_to_map_1.
Qed.

Lemma foldl_delete_lookup {B} (declared : gmap string B) l acc k :
  foldl (λ acc kv, match declared !! kv.1 with
                   | None => acc
                   | Some _ => delete kv.1 acc
                   end) acc l !! k
  = match declared !! k with
    | Some _ => if bool_decide (k ∈ l.*1) then None else acc !! k
    | None => acc !! k
    end.
Proof.
  revert acc. induction l as [|[k' v] l IH]; intros acc; csimpl.
  { by destruct (declared !! k). }
  rewrite IH. destruct (declared !! k) as [d|] eqn:Hd.
  - destruct (decide (k = k')) as [->|Hne].
    + rewrite (bool_decide_eq_true_2 (k' ∈ k' :: l.*1)) by left.
      rewrite Hd, lookup_delete_eq. by destruct (bool_decide _).
    + assert (bool_decide (k ∈ k' :: l.*1) = bool_decide (k ∈ l.*1)) as ->.
      { apply bool_decide_ext. rewrite elem_of_cons.
        split; [intros [?|?]; [congruence|done]|by right]. }
      destruct (bool_decide (k ∈ l.*1)); [done|].
      destruct (declared !! k'); [by rewrite lookup_delete_ne|done].
  - destruct (declared !! k') eqn:Hk'; [|done].
    rewrite lookup_delete_ne; [done|]. congruence.
Qed.
End folds.

Lemma assign_all_union (src dst : gmap string Value) :
  assign_all src dst = src ∪ dst.
Proof.
  unfold assign_all. rewrite foldl_insert_union by apply NoDup_fst_entries.
  by rewrite list_to_map_entries.
Qed.

Lemma AddArgOverrides_union (m : gmap string Value) (a : Args) :
  AddArgOverrides m a
  = MkArgs (m ∪ overrides_ a) (m ∪ all_overrides_ a)
           (declared_arguments_per_toolchain_ a) (toolchain_overrides_ a).
Proof.
  unfold AddArgOverrides. rewrite <-!assign_all_union. unfold assign_all.
  generalize (entries m). intros l. revert a.
  induction l as [|kv l IH]; intros a; simpl; [by destruct a|].
  by rewrite IH.
Qed.

Lemma RemoveDeclaredOverrides_lookup (declared overrides : gmap string Value)
    (k : string) :
  RemoveDeclaredOverrides declared overrides !! k
  = match declared !! k with Some _ => None | None => overrides !! k end.
Proof.
  unfold RemoveDeclaredOverrides. rewrite foldl_delete_lookup.
  destruct (declared !! k) as [d|]; [|done].
  case_bool_decide as Hin; [done|].
  apply eq_None_not_Some. intros [v Hv]. apply Hin.
  apply list_elem_of_fmap. exists (k, v). split; [done|].
  by apply elem_of_entries.
Qed.

Lemma unused_fold_lookup (l : list (Settings * gmap string Value))
    (acc : gmap string Value) (k : string) (v : Value) :
  foldl (λ unused map_pair, RemoveDeclaredOverrides map_pair.2 unused) acc l
    !! k = Some v
  ↔ acc !! k = Some v ∧ ∀ map_pair, map_pair ∈ l → map_pair.2 !! k = None.
Proof.
  revert acc. induction l as [|[t m] l IH]; intros acc; simpl.
  - split; [intros ?; split; [done|]|by intros [? _]].
    intros ? ?%elem_of_nil. done.
  - rewrite IH, RemoveDeclaredOverrides_lookup. split.
    + intros [Hacc Hl]. destruct (m !! k) eqn:Hm; [done|]. split; [done|].
      intros mp [->|?]%elem_of_cons; [done|by apply Hl].
    + intros [Hacc Hl]. pose proof (Hl (t, m) ltac:(left)) as Hm.
      simpl in Hm. rewrite Hm. split; [done|].
      intros mp ?. apply Hl. by right.
Qed.

Lemma unused_overrides_of_lookup (a : Args) (k : string) (v : Value) :
  unused_overrides_of a !! k = Some v
  ↔ all_overrides_ a !! k = Some v
    ∧ ∀ t m, declared_arguments_per_toolchain_ a !! t = Some m → m !! k = None.
Proof.
  unfold unused_overrides_of. rewrite unused_fold_lookup. split.
  - intros [? Hl]. split; [done|]. intros t m Htm.
    by apply (Hl (t, m)), elem_of_map_to_list.
  - intros [? Hl]. split; [done|]. intros [t m] Htm%elem_of_map_to_list.
    by apply (Hl t m).
Qed.

(** ** Writing overrides into a scope *)

Lemma ApplyOverrides_fold (declared : gmap string Value)
    (l : list (string * Value)) (sc : Scope) :
  NoDup l.*1 →
  let sc' := foldl (λ sc val,
                      match declared !! val.1 with
                      | None => sc
                      | Some _ => SetValue val.1 val.2 (origin val.2) sc
                      end) sc l in
  settings sc' = settings sc ∧ used_ sc' = used_ sc ∧
  ∀ k, values_ sc' !! k =
       match (list_to_map l : gmap string Value) !! k, declared !! k with
       | Some v, Some _ => Some v
       | _, _ => values_ sc !! k
       end.
Proof.
  revert sc. induction l as [|[k' v'] l IH]; intros sc Hnd; csimpl.
  { split_and!; [done..|]. intros k. by rewrite lookup_empty. }
  inversion_clear Hnd as [|?? Hk' Hl].
  destruct (IH (match declared !! k' with
                | None => sc
                | Some _ => SetValue k' v' (origin v') sc
                end) Hl) as (Hs & Hu & Hv).
  split_and!.
  - rewrite Hs. by destruct (declared !! k').
  - rewrite Hu. by destruct (declared !! k').
  - intros k. rewrite Hv. destruct (decide (k = k')) as [->|Hne].
    + rewrite lookup_insert_eq, (not_elem_of_list_to_map_1 _ _ Hk').
      destruct (declared !! k'); [|done].
      simpl. by rewrite lookup_insert_eq, set_origin_origin.
    + rewrite lookup_insert_ne by done.
      assert (values_ (match declared !! k' with
                       | None => sc
                       | Some _ => SetValue k' v' (origin v') sc
                       end) !! k = values_ sc !! k) as ->; [|done].
      destruct (declared !! k'); [|done]. simpl. by rewrite lookup_insert_ne.
Qed.

Lemma ApplyOverridesLocked_scope (values : gmap string Value) (scope : Scope)
    (a : Args) :
  let sc' := (ApplyOverridesLocked values scope a).2 in
  settings sc' = settings scope ∧ used_ sc' = used_ scope ∧
  ∀ k, values_ sc' !! k =
       match values !! k, DeclaredArgumentsForToolchainLocked scope a !! k with
       | Some v, Some _ => Some v
       | _, _ => values_ scope !! k
       end.
Proof.
  unfold ApplyOverridesLocked. simpl.
  pose proof (ApplyOverrides_fold (DeclaredArgumentsForToolchainLocked scope a)
                (entries values) scope (NoDup_fst_entries _)) as H.
  by rewrite list_to_map_entries in H.
Qed.

(** ** The toolchain order *)

Lemma String_ltb_leb (s t : string) : String.ltb s t = negb (String.leb t s).
Proof.
  unfold String.ltb, String.leb. rewrite (String.compare_antisym s t).
  by destruct (String.compare t s).
Qed.

Lemma toolchain_less_irrefl (t : Settings) : toolchain_less t t = false.
Proof.
  unfold toolchain_less. rewrite eqb_reflx. simpl.
  rewrite String_ltb_leb. apply negb_false_iff, Is_true_true.
  change (String.le (toolchain_label t) (toolchain_label t)). done.
Qed.

Global Instance toolchain_le_refl : Reflexive toolchain_le.
Proof. intros t. apply toolchain_less_irrefl. Qed.

Global Instance toolchain_le_total : Total toolchain_le.
Proof.
  intros [xa xd xl] [ya yd yl]. unfold toolchain_le, toolchain_less. simpl.
  destruct xd, yd; simpl; auto.
  all: rewrite !String_ltb_leb, !negb_false_iff.
  all: destruct (String.leb_total xl yl); auto.
Qed.

Global Instance toolchain_le_trans : Transitive toolchain_le.
Proof.
  intros [xa xd xl] [ya yd yl] [za zd zl].
  unfold toolchain_le, toolchain_less. simpl.
  destruct xd, yd, zd; simpl; try done.
  all: rewrite !String_ltb_leb, !negb_false_iff, <-!Is_true_true.
  all: intros H1 H2; exact (transitivity (R:=String.le) H1 H2).
Qed.

Lemma GetSortedToolchainsLocked_elem (a : Args) (t : Settings) :
  t ∈ GetSortedToolchainsLocked a
  ↔ is_Some (declared_arguments_per_toolchain_ a !! t).
Proof.
  unfold GetSortedToolchainsLocked, std_sort.
  rewrite merge_sort_Permutation, list_elem_of_fmap. split.
  - intros ([t' m] & -> & Hin%elem_of_map_to_list). eauto.
  - intros [m Hm]. exists (t, m). split; [done|]. by apply elem_of_map_to_list.
Qed.

Lemma GetSortedToolchainsLocked_sorted (a : Args) :
  StronglySorted toolchain_le (GetSortedToolchainsLocked a).
Proof. apply (StronglySorted_merge_sort _). Qed.

Lemma GetSortedToolchainsLocked_NoDup (a : Args) :
  NoDup (GetSortedToolchainsLocked a).
Proof.
  unfold GetSortedToolchainsLocked, std_sort.
  rewrite merge_sort_Permutation. apply NoDup_fst_map_to_list.
Qed.

Lemma first_declared_None (name : string) (ts : list Settings)
    (d : gmap Settings (gmap string Value)) :
  first_declared name ts d = None
  ↔ ∀ t, t ∈ ts → at_key t d !! name = None.
Proof.
  induction ts as [|t0 ts IH]; simpl.
  - split; [|done]. by intros _ ? ?%elem_of_nil.
  - destruct (at_key t0 d !! name) as [v|] eqn:Ht0.
    + split; [done|]. intros H. specialize (H t0 ltac:(left)). congruence.
    + rewrite IH. split.
      * intros H t [->|?]%elem_of_cons; auto.
      * intros H t ?. apply H. by right.
Qed.

Lemma first_declared_Some (name : string) (ts : list Settings)
    (d : gmap Settings (gmap string Value)) (v : Value) :
  StronglySorted toolchain_le ts →
  first_declared name ts d = Some v →
  ∃ t, t ∈ ts ∧ at_key t d !! name = Some v ∧
       ∀ t', t' ∈ ts → is_Some (at_key t' d !! name) → toolchain_le t t'.
Proof.
  induction 1 as [|t0 ts Hsorted IH Hall]; simpl; [done|].
  destruct (at_key t0 d !! name) as [v0|] eqn:Ht0.
  - intros [= ->]. exists t0. split_and!; [by left|done|].
    intros t' [->|Hin]%elem_of_cons _; [done|].
    by eapply Forall_forall in Hall.
  - intros (t & Hin & Ht & Hmin)%IH. exists t. split_and!; [by right|done|].
    intros t' [->|Hin']%elem_of_cons Hsome; [|by apply Hmin].
    rewrite Ht0 in Hsome. by destruct Hsome.
Qed.

Lemma at_key_Some (t : Settings) (d : gmap Settings (gmap string Value))
    (name : string) (v : Value) :
  at_key t d !! name = Some v ↔ ∃ m, d !! t = Some m ∧ m !! name = Some v.
Proof.
  unfold at_key. destruct (d !! t) as [m|]; simpl.
  - split; [eauto|]. by intros (? & [= <-] & ?).
  - rewrite lookup_empty. split; [done|]. by intros (? & ? & ?).
Qed.

Lemma toolchain_le_unfold (t t' : Settings) :
  toolchain_le t t' →
  (is_default t' = true → is_default t = true) ∧
  (is_default t' = is_default t →
   String.ltb (toolchain_label t') (toolchain_label t) = false).
Proof.
  unfold toolchain_le, toolchain_less.
  destruct (is_default t'), (is_default t); simpl; intros H; split; done.
Qed.

Lemma walk_Some (name : string) (a : Args) (v : Value) :
  GetArgFromAllArguments_walk name a = Some v →
  ∃ t m, declared_arguments_per_toolchain_ a !! t = Some m ∧
         m !! name = Some v ∧ earliest_declaring name t a.
Proof.
  intros (t & Hin & (m & Hm & Hv)%at_key_Some & Hmin)%first_declared_Some;
    [|apply GetSortedToolchainsLocked_sorted].
  exists t, m. split_and!; [done..|]. intros t' m' Hm' [v' Hv'].
  apply toolchain_le_unfold, Hmin.
  - apply GetSortedToolchainsLocked_elem. eauto.
  - exists v'. apply at_key_Some. eauto.
Qed.

Lemma walk_None (name : string) (a : Args) :
  GetArgFromAllArguments_walk name a = None
  ↔ ∀ t m, declared_arguments_per_toolchain_ a !! t = Some m →
           m !! name = None.
Proof.
  unfold GetArgFromAllArguments_walk. rewrite first_declared_None. split.
  - intros H t m Hm. specialize (H t).
    rewrite GetSortedToolchainsLocked_elem in H. specialize (H ltac:(eauto)).
    unfold at_key in H. by rewrite Hm in H.
  - intros H t [m Hm]%GetSortedToolchainsLocked_elem.
    unfold at_key. rewrite Hm. simpl. by eapply H.
Qed.

(** ** The loops of the bulk view *)

Lemma insert_new_fold_lookup (l : list (string * Value))
    (res : gmap string ValueWithOverride) (k : string) :
  foldl (λ result arg,
           map_insert_new arg.1 (ValueWithOverride_of arg.2) result) res l !! k
  = match res !! k with
    | Some e => Some e
    | None => ValueWithOverride_of <$> (list_to_map l : gmap string Value) !! k
    end.
Proof.
  revert res. induction l as [|[k' v'] l IH]; intros res; csimpl.
  { rewrite lookup_empty. by destruct (res !! k). }
  rewrite IH. unfold map_insert_new. destruct (decide (k = k')) as [->|Hne].
  - rewrite lookup_insert_eq. destruct (res !! k') eqn:Hres.
    + by rewrite Hres.
    + by rewrite lookup_insert_eq.
  - rewrite (lookup_insert_ne (list_to_map l)) by done.
    destruct (res !! k'); [done|]. by rewrite lookup_insert_ne.
Qed.

Lemma defaults_fold_lookup (ts : list Settings)
    (d : gmap Settings (gmap string Value))
    (res : gmap string ValueWithOverride) (k : string) :
  foldl (λ result toolchain,
           foldl (λ result arg,
                    map_insert_new arg.1 (ValueWithOverride_of arg.2) result)
                 result (entries (at_key toolchain d))) res ts !! k
  = match res !! k with
    | Some e => Some e
    | None => ValueWithOverride_of <$> first_declared k ts d
    end.
Proof.
  revert res. induction ts as [|t ts IH]; intros res; simpl.
  { by destruct (res !! k). }
  rewrite IH, insert_new_fold_lookup, list_to_map_entries.
  destruct (res !! k); [done|]. by destruct (at_key t d !! k).
Qed.

Lemma GetAllArguments_defaults_lookup (ts : list Settings)
    (d : gmap Settings (gmap string Value)) (k : string) :
  GetAllArguments_defaults ts d !! k
  = ValueWithOverride_of <$> first_declared k ts d.
Proof.
  unfold GetAllArguments_defaults. by rewrite defaults_fold_lookup, lookup_empty.
Qed.

Lemma merge_fold_lookup (l : list (string * Value))
    (res : gmap string ValueWithOverride) (k : string) :
  NoDup l.*1 →
  foldl (λ result over,
           match result !! over.1 with
           | Some found =>
               <[over.1 := MkValueWithOverride (default_value found) true over.2]>
                 result
           | None => result
           end) res l !! k
  = match res !! k with
    | None => None
    | Some e =>
        match (list_to_map l : gmap string Value) !! k with
        | Some v => Some (MkValueWithOverride (default_value e) true v)
        | None => Some e
        end
    end.
Proof.
  revert res. induction l as [|[k' v'] l IH]; intros res Hnd; csimpl.
  { rewrite lookup_empty. by destruct (res !! k). }
  inversion_clear Hnd as [|?? Hk' Hl]. rewrite IH by done.
  destruct (decide (k = k')) as [->|Hne].
  - rewrite lookup_insert_eq, (not_elem_of_list_to_map_1 _ _ Hk').
    destruct (res !! k') eqn:Hres.
    + by rewrite lookup_insert_eq.
    + by rewrite Hres.
  - rewrite (lookup_insert_ne (list_to_map l)) by done.
    destruct (res !! k'); [|done]. by rewrite lookup_insert_ne.
Qed.

Lemma GetAllArguments_lookup (a : Args) (k : string) :
  GetAllArguments a !! k
  = match GetArgFromAllArguments_walk k a with
    | None => None
    | Some d =>
        match overrides_ a !! k with
        | Some v => Some (MkValueWithOverride d true v)
        | None => Some (ValueWithOverride_of d)
        end
    end.
Proof.
  unfold GetAllArguments, GetAllArguments_merge.
  rewrite merge_fold_lookup by apply NoDup_fst_entries.
  rewrite list_to_map_entries, GetAllArguments_defaults_lookup.
  unfold GetArgFromAllArguments_walk.
  by destruct (first_declared _ _ _).
Qed.

(** ** The declaration loop *)

Lemma write_effective_spec (tov ov : gmap string Value) (name : string)
    (value : Value) (scope : Scope) :
  write_effective tov ov name value scope
  = MkScope (settings scope)
            (<[name := effective_value tov ov name value]> (values_ scope))
            ({[name]} ∪ used_ scope).
Proof.
  unfold write_effective, MarkUsed, SetValue. simpl.
  by rewrite lookup_insert_eq, set_origin_origin.
Qed.

Lemma DeclareArgs_loop_cons (name : string) (value : Value)
    (rest : list (string * Value)) (tov ov declared : gmap string Value)
    (scope : Scope) (err : Err) :
  DeclareArgs_loop ((name, value) :: rest) tov ov declared scope err
  = match declared !! name with
    | Some prev =>
        if bool_decide (origin prev ≠ origin value) then
          MkDeclareResult false declared scope
            (DuplicateDeclarationErr (origin value) (origin prev))
        else DeclareArgs_loop rest tov ov declared
               (write_effective tov ov name value scope) err
    | None =>
        DeclareArgs_loop rest tov ov (<[name := value]> declared)
          (write_effective tov ov name value scope) err
    end.
Proof.
  simpl. unfold write_effective, effective_value.
  destruct (tov !! name), (ov !! name), (declared !! name); try done.
Qed.

Lemma DeclareArgs_loop_spec (l : list (string * Value))
    (tov ov declared : gmap string Value) (scope : Scope) (err : Err) :
  NoDup l.*1 →
  let r := DeclareArgs_loop l tov ov declared scope err in
  settings (declare_scope r) = settings scope ∧
  used_ scope ⊆ used_ (declare_scope r) ∧
  (∀ k, k ∉ l.*1 → values_ (declare_scope r) !! k = values_ scope !! k) ∧
  (∀ k, k ∉ l.*1 → declare_declared r !! k = declared !! k) ∧
  if declare_ok r then
    declare_err r = err ∧
    (∀ k, declare_declared r !! k =
          match declared !! k with
          | Some prev => Some prev
          | None => (list_to_map l : gmap string Value) !! k
          end) ∧
    ∀ name value, (name, value) ∈ l →
      ¬ declared_elsewhere declared name value ∧
      values_ (declare_scope r) !! name
        = Some (effective_value tov ov name value) ∧
      name ∈ used_ (declare_scope r)
  else
    ∃ name value prev, (name, value) ∈ l ∧ declared !! name = Some prev ∧
      origin prev ≠ origin value ∧
      declare_err r = DuplicateDeclarationErr (origin value) (origin prev).
Proof.
  revert declared scope.
  induction l as [|[name value] l IH]; intros declared scope Hnd.
  { simpl. split_and!; try done.
    - intros k. rewrite lookup_empty. by destruct (declared !! k).
    - by intros ?? ?%elem_of_nil. }
  inversion_clear Hnd as [|?? Hname Hl]. rewrite DeclareArgs_loop_cons.
  set (scope' := write_effective tov ov name value scope).
  assert (Hscope' : scope' = MkScope (settings scope)
            (<[name := effective_value tov ov name value]> (values_ scope))
            ({[name]} ∪ used_ scope)) by apply write_effective_spec.
  (* what the remaining entries give once the head has been accepted *)
  assert (Hcont : ∀ declared',
    (∀ k, k ≠ name → declared' !! k = declared !! k) →
    (∀ k, declared' !! k = match declared !! k with
                           | Some prev => Some prev
                           | None => if decide (k = name) then Some value
                                     else None
                           end) →
    ¬ declared_elsewhere declared name value →
    let r := DeclareArgs_loop l tov ov declared' scope' err in
    settings (declare_scope r) = settings scope ∧
    used_ scope ⊆ used_ (declare_scope r) ∧
    (∀ k, k ∉ ((name, value) :: l).*1 →
          values_ (declare_scope r) !! k = values_ scope !! k) ∧
    (∀ k, k ∉ ((name, value) :: l).*1 →
          declare_declared r !! k = declared !! k) ∧
    if declare_ok r then
      declare_err r = err ∧
      (∀ k, declare_declared r !! k =
            match declared !! k with
            | Some prev => Some prev
            | None => (list_to_map ((name, value) :: l) : gmap string Value) !! k
            end) ∧
      ∀ name0 value0, (name0, value0) ∈ (name, value) :: l →
        ¬ declared_elsewhere declared name0 value0 ∧
        values_ (declare_scope r) !! name0
          = Some (effective_value tov ov name0 value0) ∧
        name0 ∈ used_ (declare_scope r)
    else
      ∃ name0 value0 prev, (name0, value0) ∈ (name, value) :: l ∧
        declared !! name0 = Some prev ∧ origin prev ≠ origin value0 ∧
        declare_err r = DuplicateDeclarationErr (origin value0) (origin prev)).
  { intros declared' Hother Hlook Hhead.
    destruct (IH declared' scope' Hl) as (Hs & Hu & Hv & Hd & Hok). csimpl.
    assert (Hin_ne : ∀ k v, (k, v) ∈ l → k ≠ name).
    { intros k v Hin ->. apply Hname, list_elem_of_fmap. by exists (name, v). }
    split_and!.
    - by rewrite Hs, Hscope'.
    - etrans; [|exact Hu]. rewrite Hscope'. simpl. apply union_subseteq_r.
    - intros k [Hk1 Hk2]%not_elem_of_cons. rewrite Hv by done.
      rewrite Hscope'. simpl. by rewrite lookup_insert_ne.
    - intros k [Hk1 Hk2]%not_elem_of_cons. rewrite Hd by done. by apply Hother.
    - destruct (declare_ok _).
      + destruct Hok as (He & Hdd & Hall). split_and!; [done| |].
        * intros k. rewrite Hdd, Hlook. destruct (declared !! k); [done|].
          destruct (decide (k = name)) as [->|Hne].
          -- by rewrite lookup_insert_eq.
          -- by rewrite lookup_insert_ne.
        * intros name0 value0 [[= -> ->]|Hin]%elem_of_cons.
          -- split_and!; [done| |].
             ++ rewrite Hv by done. rewrite Hscope'. simpl.
                by rewrite lookup_insert_eq.
             ++ apply Hu. rewrite Hscope'. simpl.
                apply elem_of_union. left. by apply elem_of_singleton.
          -- destruct (Hall _ _ Hin) as (Hne & ? & ?). split_and!; [|done..].
             intros (prev & Hprev & Horig). apply Hne. exists prev.
             split; [|done]. rewrite Hother; [done|]. by eapply Hin_ne.
      + destruct Hok as (name0 & value0 & prev & Hin & Hprev & Horig & He).
        exists name0, value0, prev. split_and!; [by right| |done..].
        rewrite <-Hother; [done|]. by eapply Hin_ne. }
  destruct (declared !! name) as [prev|] eqn:Hprev.
  - case_bool_decide as Horig.
    + simpl. split_and!; try done.
      exists name, value, prev. split_and!; [by left|done..].
    + apply Hcont; [done| |].
      * intros k. destruct (declared !! k) eqn:Hk; [done|].
        case_decide; [congruence|done].
      * intros (prev' & Hprev' & Horig'). apply Horig'. congruence.
  - apply Hcont.
    + intros k Hk. by rewrite lookup_insert_ne.
    + intros k. destruct (decide (k = name)) as [->|Hne].
      * by rewrite lookup_insert_eq, Hprev.
      * rewrite lookup_insert_ne by done. by destruct (declared !! k).
    + intros (prev' & Hprev' & _). congruence.
Qed.

(** ** Seeding *)

Lemma system_value_is_Some (h : Host) (arch name : string) :
  is_Some (system_value h arch name) ↔ name ∈ system_vars.
Proof.
  unfold system_value, system_vars. repeat case_decide; subst.
  - split; [intros _|by eauto]. apply elem_of_cons; by left.
  - split; [intros _|by eauto].
    do 3 (apply elem_of_cons; right). apply elem_of_cons; by left.
  - split; [done|by eauto].
  - split; [by intros [? ?]|done].
Qed.

Lemma MarkUsed_values (k : string) (s : Scope) :
  values_ (MarkUsed k s) = values_ s.
Proof. unfold MarkUsed. by destruct (values_ s !! k). Qed.

Lemma MarkUsed_settings (k : string) (s : Scope) :
  settings (MarkUsed k s) = settings s.
Proof. unfold MarkUsed. by destruct (values_ s !! k). Qed.

Lemma seeded_lookup (h : Host) (arch : string) (m : gmap string Value)
    (k : string) :
  let empty_string := Value_string nullptr EmptyString in
  let os_val := Value_string nullptr (os_name (host_os_type h)) in
  let arch_val := Value_string nullptr arch in
  (<[kCurrentCpu := empty_string]> (<[kTargetCpu := empty_string]>
   (<[kHostCpu := arch_val]> (<[kCurrentOs := empty_string]>
   (<[kTargetOs := empty_string]> (<[kHostOs := os_val]> m)))))) !! k
  = match system_value h arch k with Some v => Some v | None => m !! k end
  ∧
  (<[kTargetCpu := empty_string]> (<[kCurrentCpu := empty_string]>
   (<[kHostCpu := arch_val]> (<[kTargetOs := empty_string]>
   (<[kCurrentOs := empty_string]> (<[kHostOs := os_val]> m)))))) !! k
  = match system_value h arch k with Some v => Some v | None => m !! k end.
Proof.
  intros empty_string os_val arch_val.
  unfold system_value, system_vars.
  rewrite !lookup_insert.
  repeat (case_decide; subst; try done).
  all: exfalso; rewrite ?elem_of_cons, ?elem_of_nil in *; intuition congruence.
Qed.

Lemma SetSystemVarsLocked_None (h : Host) (dest : Scope) (a : Args) :
  host_arch (host_os_arch h) = None → SetSystemVarsLocked h dest a = None.
Proof. unfold SetSystemVarsLocked. by intros ->. Qed.

Lemma SetSystemVarsLocked_Some (h : Host) (arch : string) (dest : Scope)
    (a : Args) :
  host_arch (host_os_arch h) = Some arch →
  ∃ declared' dest',
    SetSystemVarsLocked h dest a
      = Some (set_declared (settings dest) declared' a, dest') ∧
    settings dest' = settings dest ∧
    (∀ k, values_ dest' !! k =
          match system_value h arch k with
          | Some v => Some v
          | None => values_ dest !! k
          end) ∧
    (∀ k, declared' !! k =
          match system_value h arch k with
          | Some v => Some v
          | None => DeclaredArgumentsForToolchainLocked dest a !! k
          end).
Proof.
  intros Harch. unfold SetSystemVarsLocked. rewrite Harch.
  eexists _, _. split; [reflexivity|]. split_and!.
  - by rewrite !MarkUsed_settings.
  - intros k. rewrite !MarkUsed_values. simpl.
    apply (seeded_lookup h arch).
  - intros k. unfold DeclaredArgumentsForToolchainLocked. simpl.
    apply (seeded_lookup h arch).
Qed.

Lemma at_key_insert (k : Settings) (m : gmap string Value)
    (d : gmap Settings (gmap string Value)) :
  at_key k (<[k := m]> d) = m.
Proof. unfold at_key. by rewrite lookup_insert_eq. Qed.

Lemma ApplyOverridesLocked_args (values : gmap string Value) (scope : Scope)
    (a : Args) :
  (ApplyOverridesLocked values scope a).1
  = set_declared (settings scope)
                 (DeclaredArgumentsForToolchainLocked scope a) a.
Proof. done. Qed.

Lemma SetupRootScope_None (h : Host) (dest : Scope)
    (toolchain_overrides : gmap string Value) (a : Args) :
  host_arch (host_os_arch h) = None →
  SetupRootScope h dest toolchain_overrides a = None.
Proof.
  intros H. unfold SetupRootScope. by rewrite SetSystemVarsLocked_None.
Qed.

Lemma SetupRootScope_Some (h : Host) (arch : string) (dest : Scope)
    (toolchain_overrides : gmap string Value) (a : Args) :
  host_arch (host_os_arch h) = Some arch →
  ∃ a' dest' declared',
    SetupRootScope h dest toolchain_overrides a = Some (a', dest') ∧
    settings dest' = settings dest ∧
    overrides_ a' = overrides_ a ∧
    all_overrides_ a' = toolchain_overrides ∪ all_overrides_ a ∧
    toolchain_overrides_ a'
      = <[settings dest := toolchain_overrides]> (toolchain_overrides_ a) ∧
    declared_arguments_per_toolchain_ a'
      = <[settings dest := declared']> (declared_arguments_per_toolchain_ a) ∧
    (∀ k, declared' !! k =
          match system_value h arch k with
          | Some v => Some v
          | None => DeclaredArgumentsForToolchainLocked dest a !! k
          end) ∧
    (∀ k, values_ dest' !! k =
          match toolchain_overrides !! k, declared' !! k with
          | Some v, Some _ => Some v
          | _, _ =>
              match overrides_ a !! k, declared' !! k with
              | Some v, Some _ => Some v
              | _, _ =>
                  match system_value h arch k with
                  | Some v => Some v
                  | None => values_ dest !! k
                  end
              end
          end).
Proof.
  intros Harch. unfold SetupRootScope.
  destruct (SetSystemVarsLocked_Some h arch dest a Harch)
    as (declared' & dest1 & -> & Hs1 & Hv1 & Hd1).
  set (a1 := set_declared (settings dest) declared' a).
  assert (Hdecl1 : DeclaredArgumentsForToolchainLocked dest1 a1 = declared').
  { unfold DeclaredArgumentsForToolchainLocked, a1. simpl.
    by rewrite Hs1, at_key_insert. }
  pose proof (ApplyOverridesLocked_scope (overrides_ a1) dest1 a1) as H2.
  pose proof (ApplyOverridesLocked_args (overrides_ a1) dest1 a1) as Ha2.
  destruct (ApplyOverridesLocked (overrides_ a1) dest1 a1) as [a2 dest2].
  simpl in H2, Ha2. destruct H2 as (Hs2 & _ & Hv2).
  assert (a2 = a1) as ->.
  { rewrite Ha2, Hdecl1, Hs1. unfold a1, set_declared. simpl.
    by rewrite insert_insert_eq. }
  assert (Hdecl2 : DeclaredArgumentsForToolchainLocked dest2 a1 = declared').
  { unfold DeclaredArgumentsForToolchainLocked, a1. simpl.
    by rewrite Hs2, Hs1, at_key_insert. }
  pose proof (ApplyOverridesLocked_scope toolchain_overrides dest2 a1) as H3.
  pose proof (ApplyOverridesLocked_args toolchain_overrides dest2 a1) as Ha3.
  destruct (ApplyOverridesLocked toolchain_overrides dest2 a1) as [a3 dest3].
  simpl in H3, Ha3. destruct H3 as (Hs3 & _ & Hv3).
  assert (a3 = a1) as ->.
  { rewrite Ha3, Hdecl2, Hs2, Hs1. unfold a1, set_declared. simpl.
    by rewrite insert_insert_eq. }
  eexists _, dest3, declared'. split; [reflexivity|]. split_and!.
  - by rewrite Hs3, Hs2.
  - done.
  - simpl. apply assign_all_union.
  - simpl. by rewrite Hs3, Hs2, Hs1.
  - done.
  - done.
  - intros k. rewrite Hv3, Hdecl2, Hv2, Hdecl1, Hv1. done.
Qed.

(** ** Histories of calls *)

Lemma run_call_overrides (h : Host) (c : ArgsCall) (a a' : Args) :
  run_call h c a = Some a' →
  overrides_ a'
    = match c with
      | Call_AddArgOverride name value => <[name := value]> (overrides_ a)
      | Call_AddArgOverrides m | Call_AddDefaultArgOverrides m =>
          m ∪ overrides_ a
      | _ => overrides_ a
      end ∧
  all_overrides_ a'
    = match c with
      | Call_AddArgOverride name value => <[name := value]> (all_overrides_ a)
      | Call_AddArgOverrides m | Call_SetupRootScope _ m =>
          m ∪ all_overrides_ a
      | _ => all_overrides_ a
      end.
Proof.
  destruct c as [name value|m|m|dest tov|args scope err]; simpl.
  - by intros [= <-].
  - intros [= <-]. by rewrite AddArgOverrides_union.
  - intros [= <-]. simpl. by rewrite assign_all_union.
  - destruct (host_arch (host_os_arch h)) as [arch|] eqn:Harch.
    + destruct (SetupRootScope_Some h arch dest tov a Harch)
        as (a1 & dest1 & D & -> & _ & Hov & Hall & _).
      simpl. by intros [= <-].
    + by rewrite SetupRootScope_None.
  - by intros [= <-].
Qed.

Lemma run_calls_Some (h : Host) (cs : list ArgsCall) (a : Args) :
  is_Some (host_arch (host_os_arch h)) → is_Some (run_calls h cs a).
Proof.
  intros [arch Harch]. revert a. induction cs as [|c cs IH]; intros a; simpl.
  { eauto. }
  assert (is_Some (run_call h c a)) as [a' ->]; [|apply IH].
  destruct c; simpl; eauto.
  destruct (SetupRootScope_Some h arch dest toolchain_overrides a Harch)
    as (a1 & dest1 & D & -> & _). simpl. eauto.
Qed.

(** ** C2: what of [overrides] is in [all_overrides] *)

Lemma overrides_recorded_from (h : Host) (D T : gset string)
    (cs : list ArgsCall) (a a' : Args) :
  run_calls h cs a = Some a' →
  default_names cs ⊆ D → toolchain_names cs ⊆ T →
  (∀ n v, overrides_ a !! n = Some v → n ∉ D →
          ∃ w, all_overrides_ a !! n = Some w ∧ (n ∉ T → w = v)) →
  ∀ n v, overrides_ a' !! n = Some v → n ∉ D →
         ∃ w, all_overrides_ a' !! n = Some w ∧ (n ∉ T → w = v).
Proof.
  revert a. induction cs as [|c cs IH]; intros a; simpl.
  { by intros [= <-]. }
  destruct (run_call h c a) as [a1|] eqn:Hc; [|done].
  unfold default_names, toolchain_names. csimpl. intros Hrun HD HT Ha.
  apply (IH a1 Hrun).
  { etrans; [|exact HD]. apply union_subseteq_r. }
  { etrans; [|exact HT]. apply union_subseteq_r. }
  destruct (run_call_overrides h c a a1 Hc) as [-> ->].
  assert (HcD : default_names_of c ⊆ D).
  { etrans; [|exact HD]. apply union_subseteq_l. }
  assert (HcT : toolchain_names_of c ⊆ T).
  { etrans; [|exact HT]. apply union_subseteq_l. }
  clear IH Hrun Hc HD HT. intros n v Hn HnD.
  destruct c as [name value|m|m|dest tov|args scope err]; simpl in *.
  - destruct (decide (name = n)) as [->|Hne].
    + rewrite lookup_insert_eq in Hn. injection Hn as ->.
      exists v. by rewrite lookup_insert_eq.
    + rewrite lookup_insert_ne in Hn |- * by done. by apply Ha.
  - apply lookup_union_Some_raw in Hn as [Hm|[Hm Hn]].
    + exists v. split; [|done]. by apply lookup_union_Some_l.
    + destruct (Ha n v Hn HnD) as (w & Hw & Hwv). exists w. split; [|done].
      by rewrite lookup_union_r.
  - apply lookup_union_Some_raw in Hn as [Hm|[Hm Hn]].
    + exfalso. apply HnD, HcD, elem_of_dom. eauto.
    + by apply Ha.
  - destruct (Ha n v Hn HnD) as (w & Hw & Hwv).
    destruct (tov !! n) as [w'|] eqn:Htov.
    + exists w'. split; [by apply lookup_union_Some_l|].
      intros HnT. exfalso. apply HnT, HcT, elem_of_dom. eauto.
    + exists w. split; [|done]. by rewrite lookup_union_r.
  - by apply Ha.
Qed.

(** C2, as amended.  After any sequence of the public operations on a fresh
    [Args], every name of [overrides] that was never registered through
    [AddDefaultArgOverrides] is also a name of [all_overrides]; it carries
    the same value there unless a [toolchain_overrides] map handed to
    [SetupRootScope] names it as well. *)
Theorem overrides_recorded_in_all_overrides (h : Host) (cs : list ArgsCall)
    (a : Args) (n : string) (v : Value) :
  run_calls h cs Args_new = Some a →
  overrides_ a !! n = Some v →
  n ∉ default_names cs →
  ∃ w, all_overrides_ a !! n = Some w ∧ (n ∉ toolchain_names cs → w = v).
Proof.
  intros Hrun. apply (overrides_recorded_from h _ _ cs Args_new a Hrun);
    [done..|].
  intros n' v'. simpl. by rewrite lookup_empty.
Qed.

Lemma overrides_recorded_in_all_overrides_witness :
  ∃ w, all_overrides_
         (AddArgOverride "b" (Value_int nullptr 2)
            (AddDefaultArgOverrides {["a" := Value_int nullptr 1]} Args_new))
         !! "b" = Some w ∧
       ("b" ∉ toolchain_names history_c2 → w = Value_int nullptr 2).
Proof.
  apply (overrides_recorded_in_all_overrides host_linux_x64 history_c2).
  - reflexivity.
  - reflexivity.
  - apply (bool_decide_unpack _). vm_compute. exact I.
Defined.

(** C2, counterexample: after [AddDefaultArgOverrides({a: 1})] on a fresh
    [Args] the entry of [a] is in [overrides] and not in [all_overrides]. *)
Lemma overrides_subset_counterexample :
  run_calls host_linux_x64
    [Call_AddDefaultArgOverrides {["a" := Value_int nullptr 1]}] Args_new
  = Some (AddDefaultArgOverrides {["a" := Value_int nullptr 1]} Args_new) ∧
  ¬ (overrides_ (AddDefaultArgOverrides {["a" := Value_int nullptr 1]} Args_new)
     ⊆ all_overrides_
         (AddDefaultArgOverrides {["a" := Value_int nullptr 1]} Args_new)).
Proof.
  split; [reflexivity|]. intros Hsub.
  rewrite map_subseteq_spec in Hsub.
  specialize (Hsub "a" (Value_int nullptr 1) eq_refl). discriminate Hsub.
Qed.

(** A later toolchain override of the same name changes the value recorded in
    [all_overrides] and leaves the one in [overrides]. *)
Lemma overrides_value_differs :
  ∃ a, run_calls host_linux_x64
         [Call_AddArgOverride "a" (Value_int nullptr 1);
          Call_SetupRootScope (Scope_new (MkSettings 1 true EmptyString))
                              {["a" := Value_int nullptr 2]}] Args_new
       = Some a ∧
       overrides_ a !! "a" = Some (Value_int nullptr 1) ∧
       all_overrides_ a !! "a" = Some (Value_int nullptr 2).
Proof. eexists. split; [reflexivity|]. split; reflexivity. Qed.

(** ** C4 and C7: the unused-override audit *)

Lemma not_declared_somewhere (a : Args) (name : string) :
  ¬ declared_somewhere a name
  ↔ ∀ t m, declared_arguments_per_toolchain_ a !! t = Some m → m !! name = None.
Proof.
  split.
  - intros Hno t m Hm. apply eq_None_not_Some. intros Hsome.
    apply Hno. by exists t, m.
  - intros Hall (t & m & Hm & Hsome). rewrite (Hall t m Hm) in Hsome.
    by destruct Hsome.
Qed.

Lemma unused_overrides_of_None (a : Args) (k : string) :
  unused_overrides_of a !! k = None
  ↔ all_overrides_ a !! k = None ∨ declared_somewhere a k.
Proof.
  split.
  - intros Hnone. destruct (all_overrides_ a !! k) as [v|] eqn:Hall; [|by left].
    right. unfold declared_somewhere.
    set (l := map_to_list (declared_arguments_per_toolchain_ a)).
    destruct (decide (Forall (λ mp : Settings * gmap string Value,
                                mp.2 !! k = None) l)) as [Hf|Hf].
    + assert (unused_overrides_of a !! k = Some v) as Hsome; [|congruence].
      apply unused_overrides_of_lookup. split; [done|]. intros t m Hm.
      rewrite Forall_forall in Hf.
      by apply (Hf (t, m)), elem_of_map_to_list.
    + apply not_Forall_Exists in Hf; [|apply _].
      apply Exists_exists in Hf as ([t m] & Hin%elem_of_map_to_list & Hm).
      exists t, m. split; [done|]. by apply not_eq_None_Some.
  - intros H. apply eq_None_not_Some.
    intros [v [Hall Hno]%unused_overrides_of_lookup].
    destruct H as [H|H]; [congruence|].
    by apply not_declared_somewhere in Hno.
Qed.

Lemma VerifyAllOverridesUsed_ok
    (SpellcheckString : string → list string → string) (err : Err) (a : Args) :
  unused_overrides_of a = ∅ →
  VerifyAllOverridesUsed SpellcheckString err a = (true, err).
Proof.
  intros H. unfold VerifyAllOverridesUsed. by rewrite H, entries_empty.
Qed.

Lemma VerifyAllOverridesUsed_fail
    (SpellcheckString : string → list string → string) (err : Err) (a : Args) :
  unused_overrides_of a ≠ ∅ →
  ∃ name value help,
    unused_overrides_of a !! name = Some value ∧
    VerifyAllOverridesUsed SpellcheckString err a
      = (false, Err_at (origin value) kUnusedTitle help).
Proof.
  intros H. unfold VerifyAllOverridesUsed.
  destruct (entries (unused_overrides_of a)) as [|[name value] l] eqn:Hl.
  { by apply entries_nil_inv in Hl. }
  exists name, value. eexists. split; [|reflexivity].
  apply elem_of_entries. rewrite Hl. by left.
Qed.

(** C4.  [VerifyAllOverridesUsed] returns true exactly when every name of
    [all_overrides] is declared for some toolchain, and then leaves [*err]
    alone; otherwise it returns false and [*err] is one error without
    sub-errors, titled "Build argument has no effect." and located at the
    origin of an override in [all_overrides] that no toolchain declares. *)
Theorem VerifyAllOverridesUsed_audit
    (SpellcheckString : string → list string → string) (err : Err) (a : Args) :
  let r := VerifyAllOverridesUsed SpellcheckString err a in
  (r.1 = true ↔
   ∀ name, is_Some (all_overrides_ a !! name) → declared_somewhere a name) ∧
  (r.1 = true → r.2 = err) ∧
  (r.1 = false →
   ∃ name value,
     all_overrides_ a !! name = Some value ∧
     ¬ declared_somewhere a name ∧
     has_error r.2 = true ∧
     location r.2 = origin value ∧
     message r.2 = "Build argument has no effect." ∧
     sub_errs r.2 = []).
Proof.
  destruct (decide (unused_overrides_of a = ∅)) as [Hempty|Hne].
  - rewrite (VerifyAllOverridesUsed_ok _ _ _ Hempty). simpl.
    split_and!; [|done..]. split; [intros _|done].
    intros name [v Hv].
    assert (unused_overrides_of a !! name = None) as Hnone.
    { by rewrite Hempty, lookup_empty. }
    apply unused_overrides_of_None in Hnone as [?|?]; [congruence|done].
  - destruct (VerifyAllOverridesUsed_fail SpellcheckString err a Hne)
      as (name & value & help & [Hall Hno]%unused_overrides_of_lookup & ->).
    apply not_declared_somewhere in Hno. simpl. split_and!; [|done|].
    + split; [done|]. intros Hall'. exfalso. apply Hno, Hall'. eauto.
    + intros _. by exists name, value.
Qed.

Lemma all_overrides_names (h : Host) (cs : list ArgsCall) (a a' : Args)
    (n : string) :
  run_calls h cs a = Some a' →
  is_Some (all_overrides_ a' !! n) →
  is_Some (all_overrides_ a !! n) ∨ n ∈ command_names cs ∪ toolchain_names cs.
Proof.
  revert a. induction cs as [|c cs IH]; intros a; simpl.
  { intros [= <-]. by left. }
  destruct (run_call h c a) as [a1|] eqn:Hc; [|done].
  intros Hrun Hn. unfold command_names, toolchain_names. csimpl.
  destruct (IH a1 Hrun Hn) as [Hn1|Hn1].
  2:{ right. apply elem_of_union in Hn1 as [?|?]; apply elem_of_union;
        [left|right]; apply elem_of_union; by right. }
  destruct (run_call_overrides h c a a1 Hc) as [_ Hall]. rewrite Hall in Hn1.
  clear IH Hrun Hc Hall Hn.
  destruct c as [name value|m|m|dest tov|args scope err]; simpl in *;
    try (by left).
  - destruct (decide (name = n)) as [->|Hne].
    + right. apply elem_of_union. left. apply elem_of_union. left.
      by apply elem_of_singleton.
    + rewrite lookup_insert_ne in Hn1 by done. by left.
  - destruct Hn1 as [v [Hm|[_ Hv]]%lookup_union_Some_raw]; [|by left; eauto].
    right. apply elem_of_union. left. apply elem_of_union. left.
    apply elem_of_dom. eauto.
  - destruct Hn1 as [v [Hm|[_ Hv]]%lookup_union_Some_raw]; [|by left; eauto].
    right. apply elem_of_union. right. apply elem_of_union. left.
    apply elem_of_dom. eauto.
Qed.

(** C7.  Values registered only through [AddDefaultArgOverrides] never make
    the audit fail: after any sequence of calls on a fresh [Args],
    [VerifyAllOverridesUsed] returns true as soon as the names that came
    through [AddArgOverride], [AddArgOverrides] or a [toolchain_overrides] map
    are declared, whatever [AddDefaultArgOverrides] registered and whether or
    not those names were ever declared. *)
Theorem default_overrides_invisible_to_audit
    (SpellcheckString : string → list string → string) (err : Err)
    (h : Host) (cs : list ArgsCall) (a : Args) :
  run_calls h cs Args_new = Some a →
  (∀ n, n ∈ command_names cs ∪ toolchain_names cs → declared_somewhere a n) →
  VerifyAllOverridesUsed SpellcheckString err a = (true, err).
Proof.
  intros Hrun Hdecl. apply VerifyAllOverridesUsed_ok, map_eq. intros k.
  rewrite lookup_empty. apply unused_overrides_of_None.
  destruct (all_overrides_ a !! k) as [v|] eqn:Hk; [|by left]. right.
  destruct (all_overrides_names h cs Args_new a k Hrun) as [[? Hnew]|Hin];
    [by eauto| |by apply Hdecl].
  simpl in Hnew. by rewrite lookup_empty in Hnew.
Qed.

(** S6: [AddDefaultArgOverrides({a: 1, b: 2})], declare nothing. *)
Lemma default_overrides_invisible_to_audit_witness :
  VerifyAllOverridesUsed no_spellcheck Err_default
    (AddDefaultArgOverrides defaults_s6 Args_new) = (true, Err_default).
Proof.
  apply (default_overrides_invisible_to_audit no_spellcheck Err_default
           host_linux_x64 [Call_AddDefaultArgOverrides defaults_s6]).
  - reflexivity.
  - intros n Hn. exfalso. revert Hn. apply not_elem_of_empty.
Defined.

(** ** C3 and C5: declaration *)

Lemma entries_fst_None {A} (m : gmap string A) (k : string) :
  k ∉ (entries m).*1 ↔ m !! k = None.
Proof.
  rewrite list_elem_of_fmap. split.
  - intros Hno. apply eq_None_not_Some. intros [v Hv]. apply Hno.
    exists (k, v). split; [done|]. by apply elem_of_entries.
  - intros Hnone ([k' v] & -> & Hin%elem_of_entries). simpl in *. congruence.
Qed.

Lemma DeclareArgs_spec (args : gmap string Value) (scope : Scope) (err : Err)
    (a : Args) :
  let r := DeclareArgs args scope err a in
  let declared := DeclaredArgumentsForToolchainLocked scope a in
  let tov := OverridesForToolchainLocked scope a in
  settings (result_scope r) = settings scope ∧
  used_ scope ⊆ used_ (result_scope r) ∧
  (∀ k, args !! k = None →
        values_ (result_scope r) !! k = values_ scope !! k) ∧
  if result_ok r then
    result_err r = err ∧
    (∃ declared',
       declared_arguments_per_toolchain_ (result_args r)
         = <[settings scope := declared']> (declared_arguments_per_toolchain_ a)
       ∧ ∀ k, declared' !! k = match declared !! k with
                               | Some prev => Some prev
                               | None => args !! k
                               end) ∧
    ∀ name value, args !! name = Some value →
      ¬ declared_elsewhere declared name value ∧
      values_ (result_scope r) !! name
        = Some (effective_value tov (overrides_ a) name value) ∧
      name ∈ used_ (result_scope r)
  else
    ∃ name value prev, args !! name = Some value ∧
      declared !! name = Some prev ∧ origin prev ≠ origin value ∧
      result_err r = DuplicateDeclarationErr (origin value) (origin prev).
Proof.
  unfold DeclareArgs. simpl.
  destruct (DeclareArgs_loop_spec (entries args)
              (OverridesForToolchainLocked scope a) (overrides_ a)
              (DeclaredArgumentsForToolchainLocked scope a) scope err
              (NoDup_fst_entries _)) as (Hs & Hu & Hv & _ & Hok).
  split_and!; [done|done| |].
  - intros k Hk. by apply Hv, entries_fst_None.
  - destruct (declare_ok _).
    + destruct Hok as (He & Hd & Hall). split_and!; [done| |].
      * eexists. split; [reflexivity|]. intros k.
        by rewrite Hd, list_to_map_entries.
      * intros name value Hin. by apply Hall, elem_of_entries.
    + destruct Hok as (name & value & prev & Hin%elem_of_entries & ?).
      by exists name, value, prev.
Qed.

(** C3.  After a successful [DeclareArgs(args_map, scope_to_set, err)], every
    [(name, value)] of [args_map] reads back from [scope_to_set] as the
    toolchain override recorded for the scope's [Settings] if there is one,
    else as the global override of [overrides] if there is one, else as the
    declared default; the stored value is the source value itself, origin
    included, and the name is marked used whichever branch fired. *)
Theorem DeclareArgs_effective_value (args : gmap string Value) (scope : Scope)
    (err : Err) (a : Args) (name : string) (value : Value) :
  result_ok (DeclareArgs args scope err a) = true →
  args !! name = Some value →
  let scope' := result_scope (DeclareArgs args scope err a) in
  let toolchain_overrides := OverridesForToolchainLocked scope a in
  (∀ o, toolchain_overrides !! name = Some o →
        GetValue name scope' = Some o) ∧
  (∀ o, toolchain_overrides !! name = None → overrides_ a !! name = Some o →
        GetValue name scope' = Some o) ∧
  (toolchain_overrides !! name = None → overrides_ a !! name = None →
   GetValue name scope' = Some value) ∧
  origin <$> GetValue name scope'
    = Some (origin (effective_value toolchain_overrides (overrides_ a)
                                    name value)) ∧
  name ∈ used_ scope'.
Proof.
  intros Hok Hin. cbv zeta.
  pose proof (DeclareArgs_spec args scope err a) as H. cbv zeta in H.
  rewrite Hok in H. destruct H as (_ & _ & _ & _ & _ & Hall).
  destruct (Hall name value Hin) as (_ & Hv & Hu). unfold GetValue.
  rewrite Hv. unfold effective_value. split_and!; try done.
  - by intros o ->.
  - by intros o -> ->.
  - by intros -> ->.
Qed.

Lemma DeclareArgs_effective_value_witness :
  let scope' := result_scope
                  (DeclareArgs declared_s2 setup_s2.2 Err_default setup_s2.1) in
  let toolchain_overrides := OverridesForToolchainLocked setup_s2.2 setup_s2.1 in
  (∀ o, toolchain_overrides !! "b" = Some o → GetValue "b" scope' = Some o) ∧
  (∀ o, toolchain_overrides !! "b" = None →
        overrides_ setup_s2.1 !! "b" = Some o → GetValue "b" scope' = Some o) ∧
  (toolchain_overrides !! "b" = None → overrides_ setup_s2.1 !! "b" = None →
   GetValue "b" scope' = Some (Value_string nullptr "bvalue2")) ∧
  origin <$> GetValue "b" scope'
    = Some (origin (effective_value toolchain_overrides (overrides_ setup_s2.1)
                                    "b" (Value_string nullptr "bvalue2"))) ∧
  "b" ∈ used_ scope'.
Proof.
  apply (DeclareArgs_effective_value declared_s2 setup_s2.2 Err_default
           setup_s2.1 "b" (Value_string nullptr "bvalue2")).
  - vm_compute. reflexivity.
  - vm_compute. reflexivity.
Defined.

(** C5.  [DeclareArgs] returns false exactly when some name of [args_map] is
    already declared for the scope's [Settings] with another origin than the
    new value's.  It then emits one error, titled "Duplicate build argument
    declaration." and located at the new origin, whose only sub-error is
    located at the previous origin.  Otherwise, and so when every redeclared
    name comes with the identical origin, it returns true and leaves [*err]
    alone. *)
Theorem DeclareArgs_duplicate_detection (args : gmap string Value)
    (scope : Scope) (err : Err) (a : Args) :
  let r := DeclareArgs args scope err a in
  let declared := DeclaredArgumentsForToolchainLocked scope a in
  (result_ok r = false ↔
   ∃ name value prev, args !! name = Some value ∧
     declared !! name = Some prev ∧ origin prev ≠ origin value) ∧
  (result_ok r = false →
   ∃ name value prev sub, args !! name = Some value ∧
     declared !! name = Some prev ∧ origin prev ≠ origin value ∧
     has_error (result_err r) = true ∧
     message (result_err r) = "Duplicate build argument declaration." ∧
     location (result_err r) = origin value ∧
     sub_errs (result_err r) = [sub] ∧
     location sub = origin prev ∧
     message sub = "Previous declaration.") ∧
  (result_ok r = true → result_err r = err).
Proof.
  cbv zeta. pose proof (DeclareArgs_spec args scope err a) as H.
  cbv zeta in H.
  destruct H as (_ & _ & _ & H).
  destruct (result_ok (DeclareArgs args scope err a)).
  - destruct H as (He & _ & Hall). split_and!; [|done..].
    split; [done|]. intros (name & value & prev & Hin & Hprev & Horig).
    destruct (Hall name value Hin) as (Hno & _). exfalso. apply Hno.
    by exists prev.
  - destruct H as (name & value & prev & Hin & Hprev & Horig & ->).
    split_and!; [|intros _|done].
    + split; [intros _|done]. by exists name, value, prev.
    + exists name, value, prev. eexists. by split_and!.
Qed.

Lemma SetupRootScope_keeps_overrides (h : Host) (arch : string)
    (dest : Scope) (toolchain_overrides : gmap string Value) (a : Args) :
  host_arch (host_os_arch h) = Some arch →
  ∃ a' dest',
    SetupRootScope h dest toolchain_overrides a = Some (a', dest') ∧
    overrides_ a' = overrides_ a ∧
    OverridesForToolchainLocked dest' a' = toolchain_overrides.
Proof.
  intros Harch.
  destruct (SetupRootScope_Some h arch dest toolchain_overrides a Harch)
    as (a' & dest' & D & Heq & Hs & Hov & Hall & Htov & _).
  exists a', dest'. split_and!; [done..|].
  unfold OverridesForToolchainLocked. by rewrite Htov, Hs, at_key_insert.
Qed.

(** ** C1: overrides wait for the declaration *)




(** Outside the required order the condition on [N] matters: when the
    toolchain of [dest] has declared [a] before its root scope is set up,
    [SetupRootScope] writes the override of [a] into the empty [dest] at
    once. *)
Example setup_after_declaration_applies_override :
  run_calls host_linux_x64 history_c1 Args_new = Some args_c1 ∧
  ("a" ∉ system_vars) ∧
  GetValue "a" (Scope_new settings_default) = None ∧
  ∃ a' dest',
    SetupRootScope host_linux_x64 (Scope_new settings_default) ∅ args_c1
      = Some (a', dest') ∧
    GetValue "a" dest' = Some (Value_string nullptr "avalue").
Proof.
  split_and!.
  - reflexivity.
  - apply (bool_decide_unpack _). vm_compute. exact I.
  - reflexivity.
  - eexists _, _. split; [reflexivity|]. vm_compute. reflexivity.
Qed.

(** ** C8, C9 and C10: the lookup views *)

(** C8.  [GetArgFromAllArguments] answers the value of [all_overrides] when
    the name is there; otherwise the default declared by a toolchain that is
    earliest among the declaring ones in the sorted order (default
    toolchains first, then label ascending); and nothing exactly when no
    toolchain declares the name. *)
Theorem GetArgFromAllArguments_resolution (name : string) (a : Args) :
  (∀ v, all_overrides_ a !! name = Some v →
        GetArgFromAllArguments name a = Some v) ∧
  (all_overrides_ a !! name = None →
   (∀ v, GetArgFromAllArguments name a = Some v →
         ∃ t m, declared_arguments_per_toolchain_ a !! t = Some m ∧
                m !! name = Some v ∧ earliest_declaring name t a) ∧
   (declared_somewhere a name → is_Some (GetArgFromAllArguments name a)) ∧
   (GetArgFromAllArguments name a = None ↔ ¬ declared_somewhere a name)).
Proof.
  unfold GetArgFromAllArguments, GetArgOverride. split.
  - by intros v ->.
  - intros ->.
    assert (Hnone : GetArgFromAllArguments_walk name a = None
                    ↔ ¬ declared_somewhere a name).
    { by rewrite walk_None, not_declared_somewhere. }
    split_and!; [apply walk_Some| |done].
    intros Hdecl. destruct (GetArgFromAllArguments_walk name a); [by eauto|].
    exfalso. by apply Hnone.
Qed.

(** C9.  [GetAllArguments] has an entry for exactly the names declared for
    some toolchain.  The [default_value] of an entry is the default declared
    by a toolchain that is earliest among the declaring ones in the sorted
    order; [has_override] is true, with the value of [overrides] as
    [override_value], exactly when the name is in [overrides]; a name of
    [overrides] that no toolchain declares has no entry. *)
Theorem GetAllArguments_bulk_view (a : Args) (name : string) :
  (is_Some (GetAllArguments a !! name) ↔ declared_somewhere a name) ∧
  (∀ e, GetAllArguments a !! name = Some e →
     (∃ t m, declared_arguments_per_toolchain_ a !! t = Some m ∧
             m !! name = Some (default_value e) ∧
             earliest_declaring name t a) ∧
     (has_override e = true ↔ is_Some (overrides_ a !! name)) ∧
     (∀ v, overrides_ a !! name = Some v → override_value e = v) ∧
     (overrides_ a !! name = None → override_value e = Value_default)) ∧
  (is_Some (overrides_ a !! name) → ¬ declared_somewhere a name →
   GetAllArguments a !! name = None).
Proof.
  rewrite GetAllArguments_lookup.
  assert (Hnone : GetArgFromAllArguments_walk name a = None
                  ↔ ¬ declared_somewhere a name).
  { by rewrite walk_None, not_declared_somewhere. }
  destruct (GetArgFromAllArguments_walk name a) as [d|] eqn:Hwalk.
  - assert (Hdecl : declared_somewhere a name).
    { apply walk_Some in Hwalk as (t & m & Hm & Hd & _).
      exists t, m. eauto. }
    split_and!.
    + split; [done|]. intros _. destruct (overrides_ a !! name); eauto.
    + intros e He. apply walk_Some in Hwalk.
      destruct (overrides_ a !! name) as [v|]; injection He as <-; simpl.
      * split_and!; [done| |by intros ? [= ->]|done]. split; eauto.
      * split_and!; [done| |done..]. split; [done|]. by intros [? ?].
    + by intros _ Hno.
  - split_and!; [|done..]. split; [by intros [? ?]|].
    intros Hdecl. exfalso. by apply Hnone.
Qed.

Lemma overrides_names (h : Host) (cs : list ArgsCall) (a a' : Args)
    (n : string) :
  run_calls h cs a = Some a' →
  is_Some (overrides_ a' !! n) →
  is_Some (overrides_ a !! n) ∨ n ∈ command_names cs ∪ default_names cs.
Proof.
  revert a. induction cs as [|c cs IH]; intros a; simpl.
  { intros [= <-]. by left. }
  destruct (run_call h c a) as [a1|] eqn:Hc; [|done].
  intros Hrun Hn. unfold command_names, default_names. csimpl.
  destruct (IH a1 Hrun Hn) as [Hn1|Hn1].
  2:{ right. apply elem_of_union in Hn1 as [?|?]; apply elem_of_union;
        [left|right]; apply elem_of_union; by right. }
  destruct (run_call_overrides h c a a1 Hc) as [Hov _]. rewrite Hov in Hn1.
  clear IH Hrun Hc Hov Hn.
  destruct c as [name value|m|m|dest tov|args scope err]; simpl in *;
    try (by left).
  - destruct (decide (name = n)) as [->|Hne].
    + right. apply elem_of_union. left. apply elem_of_union. left.
      by apply elem_of_singleton.
    + rewrite lookup_insert_ne in Hn1 by done. by left.
  - destruct Hn1 as [v [Hm|[_ Hv]]%lookup_union_Some_raw]; [|by left; eauto].
    right. apply elem_of_union. left. apply elem_of_union. left.
    apply elem_of_dom. eauto.
  - destruct Hn1 as [v [Hm|[_ Hv]]%lookup_union_Some_raw]; [|by left; eauto].
    right. apply elem_of_union. right. apply elem_of_union. left.
    apply elem_of_dom. eauto.
Qed.

(** C10.  A name that never went through [AddArgOverride], [AddArgOverrides]
    or [AddDefaultArgOverrides] is reported by [GetAllArguments] without
    override and with a declared default.  This also holds when the name is
    overridden through the [toolchain_overrides] of [SetupRootScope]: a
    following successful [DeclareArgs] of the name writes the toolchain
    override into the scope, and the view of the resulting state still
    reports the name with [has_override = false] and its declared default. *)
Theorem toolchain_overrides_absent_from_bulk_view (h : Host)
    (cs : list ArgsCall) (a : Args) (name : string) :
  run_calls h cs Args_new = Some a →
  name ∉ command_names cs ∪ default_names cs →
  (∀ e, GetAllArguments a !! name = Some e →
        has_override e = false ∧ override_value e = Value_default ∧
        ∃ t m, declared_arguments_per_toolchain_ a !! t = Some m ∧
               m !! name = Some (default_value e)) ∧
  (∀ dest toolchain_overrides v args d err a1 dest1,
     toolchain_overrides !! name = Some v →
     args !! name = Some d →
     SetupRootScope h dest toolchain_overrides a = Some (a1, dest1) →
     result_ok (DeclareArgs args dest1 err a1) = true →
     GetValue name (result_scope (DeclareArgs args dest1 err a1)) = Some v ∧
     ∃ e, GetAllArguments (result_args (DeclareArgs args dest1 err a1)) !! name
          = Some e ∧
          has_override e = false ∧ override_value e = Value_default ∧
          ∃ t m, declared_arguments_per_toolchain_
                   (result_args (DeclareArgs args dest1 err a1)) !! t = Some m ∧
                 m !! name = Some (default_value e)).
Proof.
  intros Hrun Hname.
  assert (Hov : overrides_ a !! name = None).
  { apply eq_None_not_Some. intros Hsome.
    destruct (overrides_names h cs Args_new a name Hrun Hsome) as [[? Hnew]|?];
      [|done].
    simpl in Hnew. by rewrite lookup_empty in Hnew. }
  assert (Hview : ∀ a2 e, overrides_ a2 !! name = None →
            GetAllArguments a2 !! name = Some e →
            has_override e = false ∧ override_value e = Value_default ∧
            ∃ t m, declared_arguments_per_toolchain_ a2 !! t = Some m ∧
                   m !! name = Some (default_value e)).
  { intros a2 e Hov2 He. rewrite GetAllArguments_lookup, Hov2 in He.
    destruct (GetArgFromAllArguments_walk name a2) as [d0|] eqn:Hwalk; [|done].
    injection He as <-. simpl. split_and!; [done..|].
    apply walk_Some in Hwalk as (t & m & Hm & Hd & _). by exists t, m. }
  split; [intros e; by apply Hview|].
  intros dest tov v args d err a1 dest1 Htov Hargs Hsetup Hok.
  destruct (host_arch (host_os_arch h)) as [arch|] eqn:Harch;
    [|by rewrite SetupRootScope_None in Hsetup].
  destruct (SetupRootScope_keeps_overrides h arch dest tov a Harch)
    as (a1' & dest1' & Heq & Hov1 & Htov1).
  rewrite Heq in Hsetup. injection Hsetup as -> ->.
  pose proof (DeclareArgs_spec args dest1 err a1) as H. cbv zeta in H.
  rewrite Hok in H. destruct H as (_ & _ & _ & _ & (D & HD & HDk) & Hall).
  destruct (Hall name d Hargs) as (_ & Hv & _).
  split.
  { unfold GetValue. rewrite Hv, Htov1. unfold effective_value.
    by rewrite Htov. }
  set (a2 := result_args (DeclareArgs args dest1 err a1)) in *.
  assert (Hov2 : overrides_ a2 !! name = None) by by rewrite <-Hov1 in Hov.
  assert (Hdecl : declared_somewhere a2 name).
  { exists (settings dest1), D. rewrite HD, lookup_insert_eq. split; [done|].
    rewrite HDk, Hargs.
    destruct (DeclaredArgumentsForToolchainLocked dest1 a1 !! name); eauto. }
  assert (is_Some (GetAllArguments a2 !! name)) as [e He].
  { rewrite GetAllArguments_lookup, Hov2.
    destruct (GetArgFromAllArguments_walk name a2) eqn:Hwalk; [by eauto|].
    exfalso. revert Hdecl. apply not_declared_somewhere. by apply walk_None. }
  exists e. split; [done|]. by apply Hview.
Qed.

Lemma toolchain_overrides_absent_from_bulk_view_witness :
  has_override entry_c10 = false ∧ override_value entry_c10 = Value_default ∧
  ∃ t m, declared_arguments_per_toolchain_ args_c10 !! t = Some m ∧
         m !! "b" = Some (default_value entry_c10).
Proof.
  refine (proj1 (toolchain_overrides_absent_from_bulk_view host_linux_x64
                   history_c10 args_c10 "b" _ _) entry_c10 _).
  - reflexivity.
  - apply (bool_decide_unpack _). vm_compute. exact I.
  - vm_compute. reflexivity.
Defined.

(** The scope of that toolchain reads [b] as the toolchain override while the
    view reports the declared default and no override. *)
Example toolchain_override_in_scope_not_in_view :
  GetValue "b" (result_scope
                  (DeclareArgs declared_s2 setup_c10.2 Err_default setup_c10.1))
    = Some (Value_string nullptr "bvalue") ∧
  GetAllArguments args_c10 !! "b"
    = Some (MkValueWithOverride (Value_string nullptr "bvalue2") false
                                Value_default) ∧
  GetAllArguments args_c10 !! "b" = Some entry_c10.
Proof. vm_compute. by split_and!. Qed.

(** ** C6: the two lock regions of [GetArgFromAllArguments] *)

Lemma GetArgFromAllArguments_undisturbed (name : string) (a : Args) :
  GetArgFromAllArguments_interleaved name id a = GetArgFromAllArguments name a.
Proof. done. Qed.

(** C6.  A call of [GetArgFromAllArguments("current_os")] on a fresh [Args]
    that is overtaken by one [SetupRootScope] of another thread between its
    two lock regions answers the seeded default, the empty string.  Taken on
    one snapshot the answer is nothing before that [SetupRootScope] and the
    override "myos" after it, and the state has no other snapshot. *)
Theorem GetArgFromAllArguments_not_one_snapshot :
  is_Some (run_call host_linux_x64 other_thread_setup Args_new) ∧
  GetArgFromAllArguments "current_os" Args_new = None ∧
  GetArgFromAllArguments "current_os" (other_thread Args_new)
    = Some (Value_string nullptr "myos") ∧
  GetArgFromAllArguments_interleaved "current_os" other_thread Args_new
    = Some (Value_string nullptr EmptyString).
Proof.
  split_and!.
  - vm_compute. eauto.
  - reflexivity.
  - vm_compute. reflexivity.
  - vm_compute. reflexivity.
Qed.

(** ** The scenarios of args_unittest.cc *)

Example host_arch_examples :
  host_arch "x86_64" = Some "x64" ∧ host_arch "BePC" = Some "x86" ∧
  host_arch "arm64" = Some "arm64" ∧ host_arch "armv7l" = Some "arm" ∧
  host_arch "ppc64le" = Some "ppc64" ∧ host_arch "loongarch64" = Some "loong64" ∧
  host_arch "sparc" = None.
Proof. vm_compute. by split_and!. Qed.

Example unittest_VerifyAllOverridesUsed :
  let a1 := AddArgOverride "a" (Value_bool nullptr true) args_unittest_declared in
  let a2 := AddArgOverride "b" (Value_bool nullptr true) a1 in
  let a3 := AddArgOverride "c" (Value_bool nullptr true) a2 in
  (VerifyAllOverridesUsed no_spellcheck Err_default a1).1 = true ∧
  (VerifyAllOverridesUsed no_spellcheck Err_default a2).1 = true ∧
  (VerifyAllOverridesUsed no_spellcheck Err_default a3).1 = false ∧
  message (VerifyAllOverridesUsed no_spellcheck Err_default a3).2
    = "Build argument has no effect.".
Proof. vm_compute. by split_and!. Qed.

(** [ArgsTest.VerifyOverrideScope]. *)
Example unittest_VerifyOverrideScope :
  GetValue "a" setup_s2.2 = None ∧
  GetValue "b" setup_s2.2 = None ∧
  GetValue "current_os" setup_s2.2 = Some (Value_string nullptr "myos") ∧
  let r := DeclareArgs declared_s2 setup_s2.2 Err_default setup_s2.1 in
  result_ok r = true ∧
  GetValue "a" (result_scope r) = Some (Value_string nullptr "avalue") ∧
  GetValue "b" (result_scope r) = Some (Value_string nullptr "bvalue") ∧
  GetValue "c" (result_scope r) = Some (Value_string nullptr "cvalue2").
Proof. vm_compute. by split_and!. Qed.

(** [ArgsTest.VerifyGetArgFromAllArguments]. *)
Example unittest_VerifyGetArgFromAllArguments :
  let key_value_map : gmap string Value :=
    {["a" := Value_string nullptr "avalue"]} in
  let args1 := result_args (DeclareArgs key_value_map (Scope_new settings_1)
                                        Err_default Args_new) in
  let args2 := AddArgOverrides key_value_map Args_new in
  GetArgOverride "a" args1 = None ∧
  GetArgFromAllArguments "a" args1 = Some (Value_string nullptr "avalue") ∧
  GetArgFromAllArguments "b" args1 = None ∧
  GetArgOverride "a" args2 = Some (Value_string nullptr "avalue") ∧
  GetArgFromAllArguments "a" args2 = Some (Value_string nullptr "avalue").
Proof. vm_compute. by split_and!. Qed.

(** A second declaration of [x] at another place, and one at the same
    place. *)
Example duplicate_declaration :
  let first : gmap string Value := {["x" := Value_int (Some 1%positive) 0]} in
  let again : gmap string Value := {["x" := Value_int (Some 2%positive) 0]} in
  let a := result_args (DeclareArgs first (Scope_new settings_1)
                                    Err_default Args_new) in
  let r := DeclareArgs again (Scope_new settings_1) Err_default a in
  result_ok r = false ∧
  message (result_err r) = "Duplicate build argument declaration." ∧
  location (result_err r) = Some 2%positive ∧
  location <$> sub_errs (result_err r) = [Some 1%positive] ∧
  result_ok (DeclareArgs first (Scope_new settings_1) Err_default a) = true.
Proof. vm_compute. by split_and!. Qed.

(** * Further properties of gn/args.cc *)

(** ** The comparator and the sorted toolchains *)

Lemma toolchain_less_asym (a b : Settings) :
  toolchain_less a b = true → toolchain_less b a = false.
Proof.
  intros Hab. destruct (total toolchain_le a b) as [H|H]; [done|].
  unfold toolchain_le in H. congruence.
Qed.

(** X1.  The comparator [GetSortedToolchainsLocked] hands to [std::sort] is a
    strict weak ordering, as [std::sort] requires: irreflexive, asymmetric,
    transitive, and with a transitive "neither is less" relation. *)
Theorem toolchain_less_strict_weak_order :
  (∀ a, toolchain_less a a = false) ∧
  (∀ a b, toolchain_less a b = true → toolchain_less b a = false) ∧
  (∀ a b c, toolchain_less a b = true → toolchain_less b c = true →
            toolchain_less a c = true) ∧
  (∀ a b c, toolchain_less a b = false → toolchain_less b a = false →
            toolchain_less b c = false → toolchain_less c b = false →
            toolchain_less a c = false ∧ toolchain_less c a = false).
Proof.
  split_and!.
  - apply toolchain_less_irrefl.
  - apply toolchain_less_asym.
  - intros a b c Hab Hbc.
    destruct (toolchain_less a c) eqn:Hac; [done|]. exfalso.
    pose proof (toolchain_less_asym b c Hbc) as Hcb.
    (* c is not before b and a is not before c, so a is not before b *)
    assert (toolchain_le b a) as Hle.
    { transitivity c; [exact Hcb|exact Hac]. }
    unfold toolchain_le in Hle. congruence.
  - intros a b c Hab Hba Hbc Hcb. split.
    + change (toolchain_le c a). transitivity b; [exact Hbc|exact Hab].
    + change (toolchain_le a c). transitivity b; [exact Hba|exact Hcb].
Qed.

Lemma StronglySorted_lookup_lt {A} (R : relation A) (l : list A) (i j : nat)
    (x y : A) :
  StronglySorted R l → l !! i = Some x → l !! j = Some y → i < j → R x y.
Proof.
  intros Hs. revert i j. induction Hs as [|z l Hs IH Hall]; intros i j.
  { by rewrite lookup_nil. }
  destruct i as [|i], j as [|j]; simpl; try lia.
  - intros [= ->] Hy _. rewrite Forall_forall in Hall.
    apply Hall. by eapply list_elem_of_lookup_2.
  - intros Hx Hy Hlt. apply (IH i j); [done..|lia].
Qed.

(** X2.  [GetSortedToolchainsLocked] lists every key of
    [declared_arguments_per_toolchain_] exactly once; a default toolchain
    never stands behind a non-default one, and among toolchains of one kind a
    later label is never smaller than an earlier one. *)
Theorem GetSortedToolchainsLocked_order (a : Args) :
  let l := GetSortedToolchainsLocked a in
  NoDup l ∧
  (∀ t, t ∈ l ↔ is_Some (declared_arguments_per_toolchain_ a !! t)) ∧
  length l = size (declared_arguments_per_toolchain_ a) ∧
  ∀ i j ti tj, l !! i = Some ti → l !! j = Some tj → i < j →
    (is_default tj = true → is_default ti = true) ∧
    (is_default ti = is_default tj →
     String.ltb (toolchain_label tj) (toolchain_label ti) = false).
Proof.
  cbv zeta. split_and!.
  - apply GetSortedToolchainsLocked_NoDup.
  - apply GetSortedToolchainsLocked_elem.
  - unfold GetSortedToolchainsLocked, std_sort.
    by rewrite merge_sort_Permutation, length_fmap, length_map_to_list.
  - intros i j ti tj Hi Hj Hlt.
    assert (toolchain_le ti tj) as Hle.
    { eapply StronglySorted_lookup_lt;
        [apply GetSortedToolchainsLocked_sorted|done..]. }
    destruct (toolchain_le_unfold ti tj Hle) as [H1 H2]. split; [done|].
    intros Heq. by apply H2.
Qed.

(** ** Registering overrides *)

(** X3.  [AddArgOverrides] is [AddArgOverride] entry by entry: afterwards
    [GetArgOverride] and [overrides] answer with the new value for the names
    of the map and as before for the others, and the declarations and the
    toolchain overrides are as before. *)
Theorem AddArgOverrides_lookup (m : gmap string Value) (a : Args)
    (name : string) :
  GetArgOverride name (AddArgOverrides m a)
    = match m !! name with Some v => Some v | None => GetArgOverride name a end ∧
  overrides_ (AddArgOverrides m a) !! name
    = match m !! name with Some v => Some v | None => overrides_ a !! name end ∧
  declared_arguments_per_toolchain_ (AddArgOverrides m a)
    = declared_arguments_per_toolchain_ a ∧
  toolchain_overrides_ (AddArgOverrides m a) = toolchain_overrides_ a ∧
  (∀ v, AddArgOverrides {[name := v]} a = AddArgOverride name v a).
Proof.
  rewrite AddArgOverrides_union. unfold GetArgOverride. simpl.
  split_and!; try done.
  - rewrite lookup_union. destruct (m !! name), (all_overrides_ a !! name); done.
  - rewrite lookup_union. destruct (m !! name), (overrides_ a !! name); done.
  - intros v. rewrite AddArgOverrides_union. unfold AddArgOverride.
    by rewrite <-!insert_union_singleton_l.
Qed.

(** ** The host *)

(** X5.  Whatever the host, the seeded [host_cpu] is one of the twelve
    architecture names of [SetSystemVarsLocked] and the seeded [host_os] one
    of its eleven system names. *)
Theorem host_names_closed (h : Host) (arch : string) :
  host_arch (host_os_arch h) = Some arch →
  arch ∈ host_cpu_names ∧ os_name (host_os_type h) ∈ host_os_names.
Proof.
  intros Harch. split.
  - unfold host_arch in Harch. unfold host_cpu_names.
    repeat match type of Harch with
           | (if ?b then _ else _) = _ => destruct b
           end;
      try discriminate; injection Harch as <-;
      rewrite !elem_of_cons; tauto.
  - unfold host_os_names. destruct (host_os_type h); simpl;
      rewrite !elem_of_cons; tauto.
Qed.

Lemma host_names_closed_witness :
  "x64" ∈ host_cpu_names ∧ os_name (host_os_type host_linux_x64) ∈ host_os_names.
Proof. apply (host_names_closed host_linux_x64 "x64"). reflexivity. Defined.

(** X6.  An architecture name is mapped to [arm] exactly when it begins with
    "arm" and is not "arm64", which the chain catches first. *)
Theorem host_arch_arm (os_arch : string) :
  host_arch os_arch = Some "arm"
  ↔ String.prefix "arm" os_arch = true ∧ os_arch ≠ "arm64".
Proof.
  rewrite String.prefix_correct. change (String.length "arm") with 3.
  unfold host_arch, str_eqb. split.
  - intros H.
    repeat match type of H with
           | (if ?b || ?c then _ else _) = _ =>
               destruct b eqn:?, c eqn:?; simpl in H; try discriminate
           | (if ?b then _ else _) = _ => destruct b eqn:?; try discriminate
           end.
    split.
    + match goal with
      | Hx : bool_decide (String.substring 0 3 os_arch = "arm") = true |- _ =>
          by apply bool_decide_eq_true in Hx
      end.
    + match goal with
      | Hx : bool_decide (os_arch = "arm64") = false |- _ =>
          by apply bool_decide_eq_false in Hx
      end.
  - intros [Hp Hne].
    repeat match goal with
           | |- context [bool_decide (os_arch = ?s)] =>
               rewrite (bool_decide_eq_false_2 (os_arch = s))
                 by (first [exact Hne | intros ->; vm_compute in Hp; discriminate])
           end.
    simpl. by rewrite bool_decide_eq_true_2.
Qed.

(** ** What [SetupRootScope] leaves in [Args] and in the scope *)

Lemma SetupRootScope_inv (h : Host) (dest : Scope)
    (toolchain_overrides : gmap string Value) (a a' : Args) (dest' : Scope) :
  SetupRootScope h dest toolchain_overrides a = Some (a', dest') →
  ∃ arch declared',
    host_arch (host_os_arch h) = Some arch ∧
    settings dest' = settings dest ∧
    overrides_ a' = overrides_ a ∧
    all_overrides_ a' = toolchain_overrides ∪ all_overrides_ a ∧
    toolchain_overrides_ a'
      = <[settings dest := toolchain_overrides]> (toolchain_overrides_ a) ∧
    declared_arguments_per_toolchain_ a'
      = <[settings dest := declared']> (declared_arguments_per_toolchain_ a) ∧
    (∀ k, declared' !! k =
          match system_value h arch k with
          | Some v => Some v
          | None => DeclaredArgumentsForToolchainLocked dest a !! k
          end) ∧
    (∀ k, values_ dest' !! k =
          match toolchain_overrides !! k, declared' !! k with
          | Some v, Some _ => Some v
          | _, _ =>
              match overrides_ a !! k, declared' !! k with
              | Some v, Some _ => Some v
              | _, _ =>
                  match system_value h arch k with
                  | Some v => Some v
                  | None => values_ dest !! k
                  end
              end
          end).
Proof.
  intros Heq. destruct (host_arch (host_os_arch h)) as [arch|] eqn:Harch.
  - destruct (SetupRootScope_Some h arch dest toolchain_overrides a Harch)
      as (a1 & dest1 & D & Heq1 & H).
    rewrite Heq1 in Heq. injection Heq as <- <-. by exists arch, D.
  - by rewrite SetupRootScope_None in Heq.
Qed.

(** X7.  [SetupRootScope(dest, toolchain_overrides)] leaves [overrides] alone,
    records every toolchain override in [all_overrides] over what was there
    (so that [GetArgOverride] answers with it), replaces the toolchain
    overrides of the toolchain of [dest] by the given map, declares the six
    system variables for that toolchain with their seeded values, whatever
    was declared or is overridden, keeps its other declarations, and touches
    no table of another toolchain. *)
Theorem SetupRootScope_state (h : Host) (dest : Scope)
    (toolchain_overrides : gmap string Value) (a a' : Args) (dest' : Scope) :
  SetupRootScope h dest toolchain_overrides a = Some (a', dest') →
  overrides_ a' = overrides_ a ∧
  (∀ n, GetArgOverride n a'
        = match toolchain_overrides !! n with
          | Some v => Some v
          | None => GetArgOverride n a
          end) ∧
  OverridesForToolchainLocked dest a' = toolchain_overrides ∧
  (∀ t, t ≠ settings dest →
        toolchain_overrides_ a' !! t = toolchain_overrides_ a !! t ∧
        declared_arguments_per_toolchain_ a' !! t
          = declared_arguments_per_toolchain_ a !! t) ∧
  (∀ N, N ∈ system_vars →
        ∃ arch, host_arch (host_os_arch h) = Some arch ∧
                DeclaredArgumentsForToolchainLocked dest a' !! N
                  = system_value h arch N ∧
                is_Some (system_value h arch N)) ∧
  (∀ N, N ∉ system_vars →
        DeclaredArgumentsForToolchainLocked dest a' !! N
          = DeclaredArgumentsForToolchainLocked dest a !! N).
Proof.
  intros (arch & D & Harch & Hs & Hov & Hall & Htov & Hdecl & HD & _)
    %SetupRootScope_inv.
  assert (HD' : DeclaredArgumentsForToolchainLocked dest a' = D).
  { unfold DeclaredArgumentsForToolchainLocked. by rewrite Hdecl, at_key_insert. }
  split_and!.
  - done.
  - intros n. unfold GetArgOverride. rewrite Hall, lookup_union.
    destruct (toolchain_overrides !! n), (all_overrides_ a !! n); done.
  - unfold OverridesForToolchainLocked. by rewrite Htov, at_key_insert.
  - intros t Ht. rewrite Htov, Hdecl. by rewrite !lookup_insert_ne.
  - intros N HN. exists arch. split; [done|]. rewrite HD', HD.
    apply (system_value_is_Some h arch) in HN as [v Hv]. rewrite Hv. eauto.
  - intros N HN. rewrite HD', HD.
    assert (system_value h arch N = None) as ->; [|done].
    apply eq_None_not_Some. by rewrite system_value_is_Some.
Qed.

Lemma SetupRootScope_state_witness :
  overrides_ setup_s2.1 = overrides_ args_s2 ∧
  GetArgOverride "b" setup_s2.1 = Some (Value_string nullptr "bvalue") ∧
  OverridesForToolchainLocked (Scope_new settings_default) setup_s2.1
    = toolchain_overrides_s2.
Proof.
  destruct (SetupRootScope_state host_linux_x64 (Scope_new settings_default)
              toolchain_overrides_s2 args_s2 setup_s2.1 setup_s2.2 eq_refl)
    as (Hov & Hget & Htov & _).
  split_and!; [exact Hov| |exact Htov].
  rewrite (Hget "b"). reflexivity.
Defined.

Lemma MarkUsed_used (k : string) (s : Scope) :
  is_Some (values_ s !! k) → used_ (MarkUsed k s) = {[k]} ∪ used_ s.
Proof. intros [v Hv]. unfold MarkUsed. by rewrite Hv. Qed.

Lemma ApplyOverrides_fold_present (declared : gmap string Value)
    (l : list (string * Value)) (sc : Scope) (k : string) :
  is_Some (values_ sc !! k) →
  is_Some (values_ (foldl (λ sc val,
                              match declared !! val.1 with
                              | None => sc
                              | Some _ => SetValue val.1 val.2 (origin val.2) sc
                              end) sc l) !! k).
Proof.
  revert sc. induction l as [|[k' v'] l IH]; intros sc Hk; simpl; [done|].
  apply IH. destruct (declared !! k'); [|done]. simpl.
  destruct (decide (k' = k)) as [->|Hne].
  - rewrite lookup_insert_eq. eauto.
  - by rewrite lookup_insert_ne.
Qed.

Lemma SetSystemVarsLocked_used (h : Host) (dest : Scope) (a a1 : Args)
    (dest1 : Scope) :
  SetSystemVarsLocked h dest a = Some (a1, dest1) →
  used_ dest1 = list_to_set system_vars ∪ used_ dest.
Proof.
  unfold SetSystemVarsLocked.
  destruct (host_arch (host_os_arch h)) as [arch|]; [|done].
  intros [= _ <-].
  repeat (rewrite MarkUsed_used;
          [|rewrite ?MarkUsed_values; simpl; rewrite !lookup_insert;
            repeat case_decide; eauto; done]).
  unfold system_vars. simpl. apply set_eq. intros x.
  rewrite !elem_of_union, !elem_of_singleton, elem_of_empty. tauto.
Qed.

Lemma SetupRootScope_used_marks (h : Host) (dest : Scope)
    (toolchain_overrides : gmap string Value) (a a' : Args) (dest' : Scope) :
  SetupRootScope h dest toolchain_overrides a = Some (a', dest') →
  used_ dest' = list_to_set system_vars ∪ used_ dest.
Proof.
  intros Heq. unfold SetupRootScope in Heq.
  destruct (SetSystemVarsLocked h dest a) as [[a1 dest1]|] eqn:Hsys; [|done].
  apply SetSystemVarsLocked_used in Hsys.
  pose proof (ApplyOverridesLocked_scope (overrides_ a1) dest1 a1) as H2.
  destruct (ApplyOverridesLocked (overrides_ a1) dest1 a1) as [a2 dest2].
  pose proof (ApplyOverridesLocked_scope toolchain_overrides dest2 a2) as H3.
  destruct (ApplyOverridesLocked toolchain_overrides dest2 a2) as [a3 dest3].
  simpl in *. injection Heq as _ <-.
  destruct H2 as (_ & Hu2 & _), H3 as (_ & Hu3 & _). congruence.
Qed.

(** X8.  [SetupRootScope] keeps the [Settings] of the scope and marks used the six
    system variables and nothing else: the overrides it writes carry no used
    mark of their own, and marks already there stay. *)
Theorem SetupRootScope_used (h : Host) (dest : Scope)
    (toolchain_overrides : gmap string Value) (a a' : Args) (dest' : Scope) :
  SetupRootScope h dest toolchain_overrides a = Some (a', dest') →
  settings dest' = settings dest ∧
  used_ dest' = list_to_set system_vars ∪ used_ dest ∧
  (∀ N, N ∈ system_vars → is_Some (GetValue N dest') ∧ N ∈ used_ dest').
Proof.
  intros Heq. pose proof (SetupRootScope_used_marks _ _ _ _ _ _ Heq) as Hused.
  apply SetupRootScope_inv in Heq
    as (arch & D & Harch & Hs & _ & _ & _ & _ & HD & Hv).
  split_and!; [done..|]. intros N HN. split.
  - unfold GetValue. rewrite Hv.
    apply (system_value_is_Some h arch) in HN as [v Hsys]. rewrite HD, Hsys.
    destruct (toolchain_overrides !! N); [by eauto|].
    destruct (overrides_ a !! N); eauto.
  - rewrite Hused. apply elem_of_union. left. by apply elem_of_list_to_set.
Qed.

Lemma SetupRootScope_used_witness :
  settings setup_s2.2 = settings_default ∧
  used_ setup_s2.2 = list_to_set system_vars ∪ ∅.
Proof.
  destruct (SetupRootScope_used host_linux_x64 (Scope_new settings_default)
              toolchain_overrides_s2 args_s2 setup_s2.1 setup_s2.2 eq_refl)
    as (Hs & Hu & _).
  split; [exact Hs|exact Hu].
Defined.

Lemma Args_eq (a b : Args) :
  overrides_ a = overrides_ b → all_overrides_ a = all_overrides_ b →
  declared_arguments_per_toolchain_ a = declared_arguments_per_toolchain_ b →
  toolchain_overrides_ a = toolchain_overrides_ b → a = b.
Proof. destruct a, b. simpl. by intros -> -> -> ->. Qed.

Lemma Scope_eq (s t : Scope) :
  settings s = settings t → values_ s = values_ t → used_ s = used_ t → s = t.
Proof. destruct s, t. simpl. by intros -> -> ->. Qed.

(** X9.  Setting up the same root scope a second time, with the same toolchain
    overrides, changes neither [Args] nor the scope. *)
Theorem SetupRootScope_idempotent (h : Host) (dest : Scope)
    (toolchain_overrides : gmap string Value) (a a' : Args) (dest' : Scope) :
  SetupRootScope h dest toolchain_overrides a = Some (a', dest') →
  SetupRootScope h dest' toolchain_overrides a' = Some (a', dest').
Proof.
  intros Heq. pose proof (SetupRootScope_used_marks _ _ _ _ _ _ Heq) as Hu1.
  apply SetupRootScope_inv in Heq
    as (arch & D & Harch & Hs & Hov & Hall & Htov & Hdecl & HD & Hv).
  destruct (SetupRootScope_Some h arch dest' toolchain_overrides a' Harch)
    as (a2 & dest2 & D2 & Heq2 & Hs2 & Hov2 & Hall2 & Htov2 & Hdecl2 & HD2 & Hv2).
  pose proof (SetupRootScope_used_marks _ _ _ _ _ _ Heq2) as Hu2.
  rewrite Heq2. f_equal. f_equal.
  - assert (D2 = D) as ->.
    { apply map_eq. intros k. rewrite HD2.
      unfold DeclaredArgumentsForToolchainLocked.
      rewrite Hdecl, Hs, at_key_insert, HD.
      by destruct (system_value h arch k). }
    apply Args_eq.
    + done.
    + rewrite Hall2, Hall. by rewrite (assoc_L (∪)), (idemp_L (∪)).
    + rewrite Hdecl2, Hdecl, Hs. by rewrite insert_insert_eq.
    + rewrite Htov2, Htov, Hs. by rewrite insert_insert_eq.
  - assert (D2 = D) as HDD.
    { apply map_eq. intros k. rewrite HD2.
      unfold DeclaredArgumentsForToolchainLocked.
      rewrite Hdecl, Hs, at_key_insert, HD.
      by destruct (system_value h arch k). }
    subst D2. apply Scope_eq.
    + done.
    + apply map_eq. intros k. rewrite Hv2, Hov, Hv.
      destruct (toolchain_overrides !! k), (D !! k), (overrides_ a !! k),
        (system_value h arch k); done.
    + rewrite Hu2, Hu1. by rewrite (assoc_L (∪)), (idemp_L (∪)).
Qed.

Lemma SetupRootScope_idempotent_witness :
  SetupRootScope host_linux_x64 setup_s2.2 toolchain_overrides_s2 setup_s2.1
  = Some (setup_s2.1, setup_s2.2).
Proof.
  apply (SetupRootScope_idempotent host_linux_x64 (Scope_new settings_default)
           toolchain_overrides_s2 args_s2).
  reflexivity.
Defined.

(** ** What [DeclareArgs] leaves in [Args] *)

Lemma DeclareArgs_loop_declared (l : list (string * Value))
    (tov ov declared : gmap string Value) (scope : Scope) (err : Err) :
  let r := DeclareArgs_loop l tov ov declared scope err in
  (∀ k p, declared !! k = Some p → declare_declared r !! k = Some p) ∧
  (∀ k p, declare_declared r !! k = Some p →
          declared !! k = Some p ∨ (k, p) ∈ l).
Proof.
  revert declared scope. induction l as [|[name value] l IH];
    intros declared scope.
  { simpl. split; [done|]. by left. }
  rewrite DeclareArgs_loop_cons. cbv zeta.
  destruct (declared !! name) as [prev|] eqn:Hprev.
  - case_bool_decide.
    + simpl. split; [done|]. by left.
    + destruct (IH declared (write_effective tov ov name value scope))
        as [H1 H2].
      split; [done|]. intros k p Hk. destruct (H2 k p Hk) as [?|?];
        [by left|right; by right].
  - destruct (IH (<[name := value]> declared)
                 (write_effective tov ov name value scope)) as [H1 H2].
    split.
    + intros k p Hk. apply H1. rewrite lookup_insert_ne; [done|]. congruence.
    + intros k p Hk. destruct (H2 k p Hk) as [Hins|?]; [|right; by right].
      destruct (decide (name = k)) as [->|Hne].
      * rewrite lookup_insert_eq in Hins. injection Hins as ->. right. by left.
      * rewrite lookup_insert_ne in Hins by done. by left.
Qed.

Lemma DeclareArgs_toolchain_overrides_kept (args : gmap string Value)
    (scope : Scope) (err : Err) (a : Args) (sc : Scope) :
  OverridesForToolchainLocked sc (result_args (DeclareArgs args scope err a))
  = OverridesForToolchainLocked sc a.
Proof.
  unfold OverridesForToolchainLocked, DeclareArgs. simpl.
  destruct (decide (settings scope = settings sc)) as [Heq|Hne].
  - rewrite <-Heq, at_key_insert. done.
  - unfold at_key. by rewrite lookup_insert_ne.
Qed.

(** X10.  Whether it succeeds or not, [DeclareArgs] leaves [overrides] and
    [all_overrides] alone, reads the same toolchain overrides afterwards,
    touches no declaration of another toolchain, keeps every declaration the
    scope's toolchain had with the default it had (the first declaration of a
    name stays), and adds only entries of [args]. *)
Theorem DeclareArgs_state (args : gmap string Value) (scope : Scope)
    (err : Err) (a : Args) :
  let a' := result_args (DeclareArgs args scope err a) in
  overrides_ a' = overrides_ a ∧
  all_overrides_ a' = all_overrides_ a ∧
  (∀ sc, OverridesForToolchainLocked sc a' = OverridesForToolchainLocked sc a) ∧
  (∀ t, t ≠ settings scope →
        declared_arguments_per_toolchain_ a' !! t
          = declared_arguments_per_toolchain_ a !! t) ∧
  (∀ k p, DeclaredArgumentsForToolchainLocked scope a !! k = Some p →
          DeclaredArgumentsForToolchainLocked scope a' !! k = Some p) ∧
  (∀ k p, DeclaredArgumentsForToolchainLocked scope a' !! k = Some p →
          DeclaredArgumentsForToolchainLocked scope a !! k = Some p ∨
          args !! k = Some p).
Proof.
  cbv zeta. unfold DeclareArgs. simpl.
  destruct (DeclareArgs_loop_declared (entries args)
              (OverridesForToolchainLocked scope a) (overrides_ a)
              (DeclaredArgumentsForToolchainLocked scope a) scope err)
    as [Hkeep Hnew].
  split_and!; [done|done| | | |].
  - intros sc. apply (DeclareArgs_toolchain_overrides_kept args scope err a).
  - intros t Ht. by rewrite lookup_insert_ne.
  - intros k p Hk. unfold DeclaredArgumentsForToolchainLocked at 1. simpl.
    rewrite at_key_insert. by apply Hkeep.
  - intros k p. unfold DeclaredArgumentsForToolchainLocked at 1. simpl.
    rewrite at_key_insert. intros Hk.
    destruct (Hnew k p Hk) as [?|?%elem_of_entries]; [by left|by right].
Qed.

Lemma DeclareArgs_loop_used (l : list (string * Value))
    (tov ov declared : gmap string Value) (scope : Scope) (err : Err) :
  let r := DeclareArgs_loop l tov ov declared scope err in
  declare_ok r = true →
  used_ (declare_scope r) = list_to_set l.*1 ∪ used_ scope.
Proof.
  revert declared scope. induction l as [|[name value] l IH];
    intros declared scope.
  { simpl. intros _. by rewrite (left_id_L ∅ (∪)). }
  rewrite DeclareArgs_loop_cons. cbv zeta. csimpl.
  assert (Hstep : ∀ d,
    declare_ok (DeclareArgs_loop l tov ov d
                  (write_effective tov ov name value scope) err) = true →
    used_ (declare_scope (DeclareArgs_loop l tov ov d
                  (write_effective tov ov name value scope) err))
    = {[name]} ∪ list_to_set l.*1 ∪ used_ scope).
  { intros d Hok. rewrite (IH d _ Hok), write_effective_spec. simpl.
    apply set_eq. intros x. rewrite !elem_of_union. tauto. }
  destruct (declared !! name) as [prev|]; [|apply Hstep].
  case_bool_decide; [done|apply Hstep].
Qed.

(** X11.  Declaring the same arguments again for the same scope (as happens when a
    file is evaluated once more for the toolchain) succeeds whenever the first
    declaration did, and changes neither [Args] nor the scope nor [*err]. *)
Theorem DeclareArgs_idempotent (args : gmap string Value) (scope : Scope)
    (err : Err) (a : Args) :
  result_ok (DeclareArgs args scope err a) = true →
  let r1 := DeclareArgs args scope err a in
  let r2 := DeclareArgs args (result_scope r1) err (result_args r1) in
  result_ok r2 = true ∧ result_err r2 = err ∧
  result_args r2 = result_args r1 ∧ result_scope r2 = result_scope r1.
Proof.
  intros Hok1. cbv zeta.
  set (r1 := DeclareArgs args scope err a) in *.
  pose proof (DeclareArgs_spec args scope err a) as H1. cbv zeta in H1.
  fold r1 in H1. rewrite Hok1 in H1.
  destruct H1 as (Hs1 & _ & Hv1 & _ & (D1 & HD1 & HD1k) & Hall1).
  assert (Hov1 : overrides_ (result_args r1) = overrides_ a) by done.
  assert (Hall_ov1 : all_overrides_ (result_args r1) = all_overrides_ a) by done.
  pose proof (DeclareArgs_toolchain_overrides_kept args scope err a) as Htov1.
  fold r1 in Htov1.
  assert (Hused1 : used_ (result_scope r1) = dom args ∪ used_ scope).
  { unfold r1, DeclareArgs. simpl. rewrite DeclareArgs_loop_used.
    - f_equal. apply set_eq. intros x.
      rewrite elem_of_list_to_set, elem_of_dom.
      destruct (args !! x) eqn:Hx.
      + split; [by eauto|]. intros _. apply list_elem_of_fmap.
        eexists (x, _). split; [done|]. by apply elem_of_entries.
      + split; [|by intros [? ?]]. by intros ?%entries_fst_None.
    - exact Hok1. }
  assert (Hdecl1 : DeclaredArgumentsForToolchainLocked (result_scope r1)
                     (result_args r1) = D1).
  { unfold DeclaredArgumentsForToolchainLocked.
    by rewrite Hs1, HD1, at_key_insert. }
  assert (Htov1' : OverridesForToolchainLocked (result_scope r1) (result_args r1)
                   = OverridesForToolchainLocked scope a).
  { rewrite Htov1. unfold OverridesForToolchainLocked. by rewrite Hs1. }
  set (r2 := DeclareArgs args (result_scope r1) err (result_args r1)).
  pose proof (DeclareArgs_spec args (result_scope r1) err (result_args r1))
    as H2. cbv zeta in H2. fold r2 in H2.
  assert (Hok2 : result_ok r2 = true).
  { destruct (result_ok r2); [done|]. exfalso.
    destruct H2 as (_ & _ & _ & name & value & prev & Hin & Hprev & Horig & _).
    rewrite Hdecl1, HD1k in Hprev. destruct (Hall1 name value Hin) as (Hno & _).
    destruct (DeclaredArgumentsForToolchainLocked scope a !! name) as [p|] eqn:Hp.
    - apply Hno. exists p. split; [done|]. congruence.
    - congruence. }
  rewrite Hok2 in H2.
  destruct H2 as (Hs2 & _ & Hv2 & He2 & (D2 & HD2 & HD2k) & Hall2).
  assert (Hused2 : used_ (result_scope r2) = dom args ∪ used_ (result_scope r1)).
  { unfold r2, DeclareArgs. simpl. rewrite DeclareArgs_loop_used.
    - f_equal. apply set_eq. intros x.
      rewrite elem_of_list_to_set, elem_of_dom.
      destruct (args !! x) eqn:Hx.
      + split; [by eauto|]. intros _. apply list_elem_of_fmap.
        eexists (x, _). split; [done|]. by apply elem_of_entries.
      + split; [|by intros [? ?]]. by intros ?%entries_fst_None.
    - exact Hok2. }
  assert (Hov2 : overrides_ (result_args r2) = overrides_ (result_args r1))
    by done.
  assert (Hall_ov2 : all_overrides_ (result_args r2)
                     = all_overrides_ (result_args r1)) by done.
  split_and!; [done|done| |].
  - apply Args_eq; [done|done| |].
    + rewrite HD2, HD1, Hs1, insert_insert_eq. f_equal.
      apply map_eq. intros k. rewrite HD2k, Hdecl1.
      destruct (D1 !! k) eqn:Hk; [done|].
      rewrite HD1k in Hk.
      by destruct (DeclaredArgumentsForToolchainLocked scope a !! k).
    + change (toolchain_overrides_ (result_args r2))
        with (<[settings (result_scope r1) :=
                  OverridesForToolchainLocked (result_scope r1) (result_args r1)]>
                (toolchain_overrides_ (result_args r1))).
      rewrite Htov1', Hs1.
      change (toolchain_overrides_ (result_args r1))
        with (<[settings scope := OverridesForToolchainLocked scope a]>
                (toolchain_overrides_ a)).
      by rewrite insert_insert_eq.
  - apply Scope_eq; [done| |].
    + apply map_eq. intros k. destruct (args !! k) as [value|] eqn:Hk.
      * destruct (Hall2 k value Hk) as (_ & -> & _).
        destruct (Hall1 k value Hk) as (_ & -> & _).
        by rewrite Htov1', Hov1.
      * by apply Hv2.
    + rewrite Hused2, Hused1. by rewrite (assoc_L (∪)), (idemp_L (∪)).
Qed.

Lemma DeclareArgs_idempotent_witness :
  let r1 := DeclareArgs declared_s2 setup_s2.2 Err_default setup_s2.1 in
  let r2 := DeclareArgs declared_s2 (result_scope r1) Err_default
                        (result_args r1) in
  result_ok r2 = true ∧ result_err r2 = Err_default ∧
  result_args r2 = result_args r1 ∧ result_scope r2 = result_scope r1.
Proof.
  apply (DeclareArgs_idempotent declared_s2 setup_s2.2 Err_default setup_s2.1).
  vm_compute. reflexivity.
Defined.

(** X12.  The first [DeclareArgs] for a toolchain cannot fail: with nothing
    declared yet for the scope's [Settings] it returns true, leaves [*err]
    alone, and the declarations of the toolchain are then exactly [args]. *)
Theorem DeclareArgs_first_for_toolchain (args : gmap string Value)
    (scope : Scope) (err : Err) (a : Args) :
  DeclaredArgumentsForToolchainLocked scope a = ∅ →
  let r := DeclareArgs args scope err a in
  result_ok r = true ∧ result_err r = err ∧
  DeclaredArgumentsForToolchainLocked scope (result_args r) = args.
Proof.
  intros Hempty. cbv zeta.
  pose proof (DeclareArgs_spec args scope err a) as H. cbv zeta in H.
  destruct (result_ok (DeclareArgs args scope err a)).
  - destruct H as (_ & _ & _ & He & (D & HD & HDk) & _).
    split_and!; [done..|].
    unfold DeclaredArgumentsForToolchainLocked. rewrite HD, at_key_insert.
    apply map_eq. intros k. rewrite HDk, Hempty. by rewrite lookup_empty.
  - destruct H as (_ & _ & _ & name & value & prev & _ & Hprev & _).
    rewrite Hempty, lookup_empty in Hprev. done.
Qed.

Lemma DeclareArgs_first_for_toolchain_witness :
  let r := DeclareArgs declared_s2 (Scope_new settings_default) Err_default
                       Args_new in
  result_ok r = true ∧ result_err r = Err_default ∧
  DeclaredArgumentsForToolchainLocked (Scope_new settings_default)
    (result_args r) = declared_s2.
Proof.
  apply (DeclareArgs_first_for_toolchain declared_s2
           (Scope_new settings_default) Err_default Args_new).
  reflexivity.
Defined.

(** ** More on the audit *)

Lemma VerifyAllOverridesUsed_true_iff
    (SpellcheckString : string → list string → string) (err : Err) (a : Args) :
  (VerifyAllOverridesUsed SpellcheckString err a).1 = true
  ↔ ∀ k, all_overrides_ a !! k = None ∨ declared_somewhere a k.
Proof.
  split.
  - intros Hok k. apply unused_overrides_of_None.
    destruct (decide (unused_overrides_of a = ∅)) as [->|Hne]; [done|].
    destruct (VerifyAllOverridesUsed_fail SpellcheckString err a Hne)
      as (? & ? & ? & _ & Heq).
    rewrite Heq in Hok. done.
  - intros Hall. rewrite VerifyAllOverridesUsed_ok; [done|].
    apply map_eq. intros k. rewrite lookup_empty.
    by apply unused_overrides_of_None.
Qed.

Lemma declared_somewhere_DeclareArgs (args : gmap string Value) (scope : Scope)
    (err : Err) (a : Args) (k : string) :
  declared_somewhere a k →
  declared_somewhere (result_args (DeclareArgs args scope err a)) k.
Proof.
  intros (t & m & Hm & [v Hv]). unfold DeclareArgs. simpl.
  destruct (decide (t = settings scope)) as [->|Hne].
  - eexists (settings scope), _. split; [apply lookup_insert_eq|].
    exists v.
    apply (DeclareArgs_loop_declared (entries args)).
    unfold DeclaredArgumentsForToolchainLocked, at_key. by rewrite Hm.
  - exists t, m. split; [|by eauto].
    rewrite <-Hm. by apply lookup_insert_ne.
Qed.

(** X13.  An audit that passes keeps passing when more arguments are declared,
    for any toolchain and whether or not the declaration succeeds. *)
Theorem audit_survives_DeclareArgs
    (SpellcheckString : string → list string → string) (err err' : Err)
    (args : gmap string Value) (scope : Scope) (e : Err) (a : Args) :
  (VerifyAllOverridesUsed SpellcheckString err a).1 = true →
  (VerifyAllOverridesUsed SpellcheckString err'
     (result_args (DeclareArgs args scope e a))).1 = true.
Proof.
  rewrite !VerifyAllOverridesUsed_true_iff. intros Hall k.
  destruct (Hall k) as [Hnone|Hdecl]; [by left|right].
  by apply declared_somewhere_DeclareArgs.
Qed.

Lemma audit_survives_DeclareArgs_witness :
  (VerifyAllOverridesUsed no_spellcheck Err_default
     (result_args (DeclareArgs declared_s2 (Scope_new settings_default)
                               Err_default Args_new))).1 = true.
Proof.
  apply (audit_survives_DeclareArgs no_spellcheck Err_default Err_default
           declared_s2 (Scope_new settings_default) Err_default Args_new).
  reflexivity.
Defined.

Lemma spelling_fold_elem (l : list (Settings * gmap string Value))
    (acc : list string) (n : string) :
  n ∈ foldl (λ candidates map_pair,
               (candidates ++ (entries map_pair.2).*1)%list) acc l
  ↔ n ∈ acc ∨ ∃ mp, mp ∈ l ∧ is_Some (mp.2 !! n).
Proof.
  revert acc. induction l as [|[t m] l IH]; intros acc; simpl.
  - split; [by left|]. intros [?|(? & ?%elem_of_nil & _)]; done.
  - rewrite IH, elem_of_app. split.
    + intros [[?|Hin]|(mp & Hmp & Hn)].
      * by left.
      * right. exists (t, m). split; [by left|]. simpl.
        apply dec_stable. intros Hno. apply eq_None_not_Some in Hno.
        by apply entries_fst_None in Hno.
      * right. exists mp. split; [by right|done].
    + intros [?|(mp & [->|Hmp]%elem_of_cons & Hn)].
      * left. by left.
      * left. right. simpl in Hn. apply dec_stable. intros Hno.
        apply entries_fst_None in Hno. rewrite Hno in Hn. by destruct Hn.
      * right. by exists mp.
Qed.

(** X14.  The candidates [VerifyAllOverridesUsed] hands to [SpellcheckString] are
    exactly the names declared for some toolchain. *)
Theorem spelling_candidates_declared (a : Args) (n : string) :
  n ∈ spelling_candidates a ↔ declared_somewhere a n.
Proof.
  unfold spelling_candidates. rewrite spelling_fold_elem. split.
  - intros [?%elem_of_nil|([t m] & Hin%elem_of_map_to_list & Hn)]; [done|].
    by exists t, m.
  - intros (t & m & Hm & Hn). right. exists (t, m).
    split; [by apply elem_of_map_to_list|done].
Qed.

Lemma spelling_fold_concat (l : list (Settings * gmap string Value))
    (acc : list string) :
  foldl (λ candidates map_pair,
           (candidates ++ (entries map_pair.2).*1)%list) acc l
  = (acc ++ concat ((λ mp, (entries mp.2).*1) <$> l))%list.
Proof.
  revert acc. induction l as [|mp l IH]; intros acc; csimpl.
  - by rewrite (right_id_L [] app).
  - by rewrite IH, <-(assoc_L app).
Qed.

Lemma entries_head_least {A} (m : gmap string A) (name : string) (value : A)
    (rest : list (string * A)) (n : string) :
  entries m = (name, value) :: rest → is_Some (m !! n) → String.le name n.
Proof.
  intros Hl [v Hv%elem_of_entries]. pose proof (entries_sorted m) as Hs.
  rewrite Hl in Hs, Hv. apply StronglySorted_inv in Hs as [_ Hall].
  apply elem_of_cons in Hv as [[= -> ->]|Hin]; [done|].
  rewrite Forall_forall in Hall. by apply (Hall (n, v)).
Qed.

(** X15.  When the audit fails, the error is located at the origin of the
    override with the least name among those in [all_overrides] that no
    toolchain declares, and its help is about that variable.  The candidates
    for the spelling suggestion are the declared names, toolchain after
    toolchain in some order of the toolchains (their table is unordered),
    the names of one toolchain ascending.  The help is the fixed text about the
    variable when [SpellcheckString] finds nothing for it among them, and
    begins with "Did you mean" and the suggestion otherwise. *)
Theorem VerifyAllOverridesUsed_help
    (SpellcheckString : string → list string → string) (err : Err) (a : Args) :
  (VerifyAllOverridesUsed SpellcheckString err a).1 = false →
  ∃ name value toolchains,
    all_overrides_ a !! name = Some value ∧
    ¬ declared_somewhere a name ∧
    (∀ n, is_Some (all_overrides_ a !! n) → ¬ declared_somewhere a n →
          String.le name n) ∧
    location (VerifyAllOverridesUsed SpellcheckString err a).2 = origin value ∧
    toolchains ≡ₚ map_to_list (declared_arguments_per_toolchain_ a) ∧
    let candidates := concat ((λ mp, (entries mp.2).*1) <$> toolchains) in
    let suggestion := SpellcheckString name candidates in
    (suggestion = EmptyString →
     help_text (VerifyAllOverridesUsed SpellcheckString err a).2
       = UnusedHelp name) ∧
    (suggestion ≠ EmptyString →
     help_text (VerifyAllOverridesUsed SpellcheckString err a).2
       = "Did you mean " +:+ DQ +:+ suggestion +:+ DQ +:+ "?" +:+
         NL +:+ NL +:+ UnusedHelp name).
Proof.
  unfold VerifyAllOverridesUsed.
  destruct (entries (unused_overrides_of a)) as [|[name value] l] eqn:Hl;
    [done|].
  intros _.
  exists name, value, (map_to_list (declared_arguments_per_toolchain_ a)).
  assert ((name, value) ∈ entries (unused_overrides_of a)) as Hin.
  { rewrite Hl. by left. }
  apply elem_of_entries, unused_overrides_of_lookup in Hin as [Hall Hno].
  apply not_declared_somewhere in Hno.
  unfold spelling_candidates. rewrite spelling_fold_concat. simpl.
  split_and!; [done|done| |done|done| |].
  - intros n [v Hv] Hn. apply (entries_head_least _ _ _ _ _ Hl).
    exists v. apply unused_overrides_of_lookup. split; [done|].
    by apply not_declared_somewhere.
  - intros Hs. by rewrite bool_decide_eq_true_2.
  - intros Hs. by rewrite bool_decide_eq_false_2.
Qed.

Lemma VerifyAllOverridesUsed_help_witness :
  ∃ name value,
    all_overrides_ args_unittest_c !! name = Some value ∧
    ¬ declared_somewhere args_unittest_c name ∧
    location (VerifyAllOverridesUsed no_spellcheck Err_default
                                     args_unittest_c).2 = origin value.
Proof.
  destruct (VerifyAllOverridesUsed_help no_spellcheck Err_default
              args_unittest_c eq_refl) as (name & value & ts & H1 & H2 & _ & H3 & _).
  exists name, value. split_and!; [exact H1|exact H2|exact H3].
Defined.

(** Maps are visited by ascending name: the candidates of one toolchain come
    in that order, and of two unused overrides the one with the lesser name
    is reported. *)
Example audit_in_key_order :
  (entries (<["c" := 3]> (<["a" := 1]> ({["b" := 2]} : gmap string nat)))).*1
    = ["a"; "b"; "c"] ∧
  spelling_candidates args_key_order = ["a"; "c"] ∧
  location (VerifyAllOverridesUsed first_candidate Err_default
                                   args_key_order).2 = Some 4%positive ∧
  help_text (VerifyAllOverridesUsed first_candidate Err_default
                                    args_key_order).2
    = "Did you mean " +:+ DQ +:+ "a" +:+ DQ +:+ "?" +:+ NL +:+ NL +:+
      UnusedHelp "b".
Proof. vm_compute. by split_and!. Qed.

(** X16.  [RemoveDeclaredOverrides] only removes: what is left is part of the
    overrides and shares no name with the declarations.  Removing the same
    declarations twice, or two sets of declarations in either order, gives
    the same; with nothing declared nothing is removed. *)
Theorem RemoveDeclaredOverrides_algebra (d d' o : gmap string Value) :
  RemoveDeclaredOverrides d o ⊆ o ∧
  (∀ k, is_Some (d !! k) → RemoveDeclaredOverrides d o !! k = None) ∧
  RemoveDeclaredOverrides d (RemoveDeclaredOverrides d o)
    = RemoveDeclaredOverrides d o ∧
  RemoveDeclaredOverrides d (RemoveDeclaredOverrides d' o)
    = RemoveDeclaredOverrides d' (RemoveDeclaredOverrides d o) ∧
  RemoveDeclaredOverrides ∅ o = o ∧
  (dom o ⊆ dom d → RemoveDeclaredOverrides d o = ∅).
Proof.
  split_and!.
  - apply map_subseteq_spec. intros k v.
    rewrite RemoveDeclaredOverrides_lookup. by destruct (d !! k).
  - intros k [v Hv]. by rewrite RemoveDeclaredOverrides_lookup, Hv.
  - apply map_eq. intros k. rewrite !RemoveDeclaredOverrides_lookup.
    by destruct (d !! k).
  - apply map_eq. intros k. rewrite !RemoveDeclaredOverrides_lookup.
    by destruct (d !! k), (d' !! k).
  - apply map_eq. intros k. by rewrite RemoveDeclaredOverrides_lookup,
      lookup_empty.
  - intros Hsub. apply map_eq. intros k.
    rewrite RemoveDeclaredOverrides_lookup, lookup_empty.
    destruct (d !! k) eqn:Hd; [done|]. apply not_elem_of_dom.
    intros Hk%Hsub. by apply not_elem_of_dom in Hd.
Qed.

(** ** The two views side by side *)

(** X17.  For a name without entry in [all_overrides], [GetArgFromAllArguments]
    answers the [default_value] that [GetAllArguments] reports.  The views
    part on a declared name that only [AddDefaultArgOverrides] overrode:
    [GetAllArguments] reports it with [has_override] and the override, while
    [GetArgFromAllArguments] and [GetArgOverride] do not see the override. *)
Theorem views_on_default_overrides (a : Args) (name : string) :
  all_overrides_ a !! name = None →
  GetArgOverride name a = None ∧
  GetArgFromAllArguments name a
    = default_value <$> GetAllArguments a !! name ∧
  (∀ v, overrides_ a !! name = Some v → declared_somewhere a name →
        ∃ e, GetAllArguments a !! name = Some e ∧
             has_override e = true ∧ override_value e = v ∧
             GetArgFromAllArguments name a = Some (default_value e)).
Proof.
  intros Hall. unfold GetArgFromAllArguments, GetArgOverride. rewrite Hall.
  rewrite GetAllArguments_lookup. split_and!; [done| |].
  - destruct (GetArgFromAllArguments_walk name a); [|done].
    by destruct (overrides_ a !! name).
  - intros v -> Hdecl.
    destruct (GetArgFromAllArguments_walk name a) as [d|] eqn:Hwalk.
    + by eexists.
    + exfalso. revert Hdecl. apply not_declared_somewhere. by apply walk_None.
Qed.

Lemma views_on_default_overrides_witness :
  GetArgOverride "c" args_default_c = None ∧
  GetArgFromAllArguments "c" args_default_c
    = default_value <$> GetAllArguments args_default_c !! "c".
Proof.
  destruct (views_on_default_overrides args_default_c "c" eq_refl)
    as (H1 & H2 & _).
  split; [exact H1|exact H2].
Defined.

Example default_override_in_view_only :
  GetAllArguments args_default_c !! "c"
    = Some (MkValueWithOverride (Value_string nullptr "cvalue2") true
                                (Value_string nullptr "cdefault")) ∧
  GetArgFromAllArguments "c" args_default_c
    = Some (Value_string nullptr "cvalue2").
Proof. vm_compute. by split. Qed.

(** ** Applying two maps of overrides *)

(** X18.  Applying the global overrides and then the toolchain overrides to a
    scope, as [SetupRootScope] does, is applying once the map in which the
    toolchain overrides come over the global ones; the [Args] state is the
    same either way. *)
Theorem ApplyOverridesLocked_twice (first second : gmap string Value)
    (scope : Scope) (a : Args) :
  ApplyOverridesLocked second (ApplyOverridesLocked first scope a).2
                       (ApplyOverridesLocked first scope a).1
  = ApplyOverridesLocked (second ∪ first) scope a.
Proof.
  pose proof (ApplyOverridesLocked_scope first scope a) as (Hs1 & Hu1 & Hv1).
  pose proof (ApplyOverridesLocked_args first scope a) as Ha1.
  set (sc1 := (ApplyOverridesLocked first scope a).2) in *.
  set (a1 := (ApplyOverridesLocked first scope a).1) in *.
  assert (Hd1 : DeclaredArgumentsForToolchainLocked sc1 a1
                = DeclaredArgumentsForToolchainLocked scope a).
  { unfold DeclaredArgumentsForToolchainLocked at 1.
    rewrite Ha1, Hs1. simpl. by rewrite at_key_insert. }
  pose proof (ApplyOverridesLocked_scope second sc1 a1) as (Hs2 & Hu2 & Hv2).
  pose proof (ApplyOverridesLocked_args second sc1 a1) as Ha2.
  pose proof (ApplyOverridesLocked_scope (second ∪ first) scope a)
    as (Hs3 & Hu3 & Hv3).
  pose proof (ApplyOverridesLocked_args (second ∪ first) scope a) as Ha3.
  destruct (ApplyOverridesLocked second sc1 a1) as [a2 sc2].
  destruct (ApplyOverridesLocked (second ∪ first) scope a) as [a3 sc3].
  simpl in *. f_equal.
  - rewrite Ha2, Ha3, Hd1, Hs1, Ha1. unfold set_declared. simpl.
    by rewrite insert_insert_eq.
  - apply Scope_eq; [congruence| |congruence].
    apply map_eq. intros k. rewrite Hv2, Hv3, Hd1, Hv1, lookup_union.
    destruct (second !! k), (first !! k),
      (DeclaredArgumentsForToolchainLocked scope a !! k); done.
Qed.

(** ** Declaring and looking up *)

(** X19.  Declare and look up: after a successful [DeclareArgs] of a name that has
    no entry in [all_overrides] and that no toolchain had declared,
    [GetArgFromAllArguments] answers with the declared default and
    [GetAllArguments] reports that default. *)
Theorem DeclareArgs_then_lookup (args : gmap string Value) (scope : Scope)
    (err : Err) (a : Args) (name : string) (value : Value) :
  result_ok (DeclareArgs args scope err a) = true →
  args !! name = Some value →
  all_overrides_ a !! name = None →
  ¬ declared_somewhere a name →
  let a' := result_args (DeclareArgs args scope err a) in
  GetArgFromAllArguments name a' = Some value ∧
  default_value <$> GetAllArguments a' !! name = Some value.
Proof.
  intros Hok Hin Hall Hno. cbv zeta.
  pose proof (DeclareArgs_spec args scope err a) as H. cbv zeta in H.
  rewrite Hok in H. destruct H as (_ & _ & _ & _ & (D & HD & HDk) & _).
  set (a' := result_args (DeclareArgs args scope err a)) in *.
  assert (Hwalk : GetArgFromAllArguments_walk name a' = Some value).
  { assert (HDname : D !! name = Some value).
    { rewrite HDk, Hin.
      destruct (DeclaredArgumentsForToolchainLocked scope a !! name) as [p|]
        eqn:Hp; [|done].
      exfalso. apply Hno. apply at_key_Some in Hp as (m & Hm & Hmp).
      exists (settings scope), m. eauto. }
    destruct (GetArgFromAllArguments_walk name a') as [v|] eqn:Hw.
    - apply walk_Some in Hw as (t & m & Hm & Hv & _). rewrite HD in Hm.
      destruct (decide (t = settings scope)) as [->|Hne].
      + rewrite lookup_insert_eq in Hm. injection Hm as <-. congruence.
      + rewrite lookup_insert_ne in Hm by done. exfalso. apply Hno.
        exists t, m. eauto.
    - exfalso. rewrite walk_None in Hw.
      specialize (Hw (settings scope) D). rewrite HD, lookup_insert_eq in Hw.
      specialize (Hw eq_refl). congruence. }
  split.
  - unfold GetArgFromAllArguments, GetArgOverride.
    change (all_overrides_ a') with (all_overrides_ a). by rewrite Hall.
  - rewrite GetAllArguments_lookup, Hwalk. by destruct (overrides_ a' !! name).
Qed.

Lemma DeclareArgs_then_lookup_witness :
  let a' := result_args (DeclareArgs declared_s2 (Scope_new settings_default)
                                     Err_default Args_new) in
  GetArgFromAllArguments "a" a' = Some (Value_string nullptr "avalue2") ∧
  default_value <$> GetAllArguments a' !! "a"
    = Some (Value_string nullptr "avalue2").
Proof.
  apply (DeclareArgs_then_lookup declared_s2 (Scope_new settings_default)
           Err_default Args_new "a" (Value_string nullptr "avalue2")).
  - reflexivity.
  - reflexivity.
  - reflexivity.
  - intros (t & m & Hm & _). discriminate Hm.
Defined.

(** * Properties of base/json/json_value_converter.h *)

Section json.
Context `{BaseValues}.

Lemma JSONValueConverter_loop_app {StructType : Type}
    (fields1 fields2 : list (FieldConverterBase StructType))
    (d : DictionaryValue) (output : StructType) :
  JSONValueConverter_loop (fields1 ++ fields2) d output
  = let r := JSONValueConverter_loop fields1 d output in
    if r.1 then JSONValueConverter_loop fields2 d r.2 else (false, r.2).
Proof.
  revert output. induction fields1 as [|fc fields1 IH]; intros output; simpl.
  { done. }
  destruct (DictionaryGet d (field_path fc)) as [field|]; [|apply IH].
  destruct (ConvertField fc field output) as [[] out]; simpl; [apply IH|done].
Qed.

(** X20.  Fields are converted in the order of registration, and converting with
    the fields registered first and then with those registered later is
    converting with all of them: the later ones run on the output of the
    earlier ones, and not at all once one of the earlier ones has failed. *)
Theorem JSONValueConverter_Convert_app {StructType : Type}
    (fields1 fields2 : JSONValueConverter StructType) (value : BaseValue)
    (output : StructType) :
  JSONValueConverter_Convert (fields1 ++ fields2)%list value output
  = let r := JSONValueConverter_Convert fields1 value output in
    if r.1 then JSONValueConverter_Convert fields2 value r.2
    else (false, r.2).
Proof.
  unfold JSONValueConverter_Convert.
  destruct (GetAsDictionary value) as [d|]; [|done].
  apply JSONValueConverter_loop_app.
Qed.

Lemma JSONValueConverter_loop_present {StructType : Type}
    (fields : list (FieldConverterBase StructType))
    (d : DictionaryValue) (output : StructType) :
  JSONValueConverter_loop fields d output
  = JSONValueConverter_loop
      (filter (λ fc, is_Some (DictionaryGet d (field_path fc))) fields)
      d output.
Proof.
  revert output. induction fields as [|fc fields IH]; intros output; [done|].
  rewrite filter_cons. simpl.
  destruct (DictionaryGet d (field_path fc)) as [field|] eqn:Hget.
  - rewrite decide_True by eauto. simpl. rewrite Hget.
    destruct (ConvertField fc field output) as [[] out]; simpl; [apply IH|done].
  - rewrite decide_False by (by intros [? ?]). apply IH.
Qed.

(** X21.  Missing fields are not reported: on a dictionary, [Convert] does what it
    would do with only the registered fields the dictionary has, and with
    none of them there it returns true and leaves the output as it was.  A
    value that is no dictionary makes it return false with the output
    untouched. *)
Theorem JSONValueConverter_Convert_missing {StructType : Type}
    (fields : JSONValueConverter StructType) (value : BaseValue)
    (output : StructType) :
  (GetAsDictionary value = None →
   JSONValueConverter_Convert fields value output = (false, output)) ∧
  (∀ d, GetAsDictionary value = Some d →
     JSONValueConverter_Convert fields value output
     = JSONValueConverter_Convert
         (filter (λ fc, is_Some (DictionaryGet d (field_path fc))) fields)
         value output ∧
     ((∀ fc, fc ∈ fields → DictionaryGet d (field_path fc) = None) →
      JSONValueConverter_Convert fields value output = (true, output))).
Proof.
  unfold JSONValueConverter_Convert. split; [by intros ->|].
  intros d ->. split; [apply JSONValueConverter_loop_present|].
  clear value. induction fields as [|fc fields IH]; intros Hmissing; [done|].
  simpl. rewrite (Hmissing fc) by left. apply IH.
  intros fc' Hin. apply Hmissing. by right.
Qed.

(** X22.  [Convert] stops at the first field that is there and does not convert:
    it returns false, the fields registered after it are not looked at, and
    the output keeps what the earlier fields and the failing converter wrote
    into it. *)
Theorem JSONValueConverter_Convert_stops {StructType : Type}
    (before after : JSONValueConverter StructType)
    (failing : FieldConverterBase StructType) (value field : BaseValue)
    (d : DictionaryValue) (output output1 : StructType) :
  GetAsDictionary value = Some d →
  JSONValueConverter_Convert before value output = (true, output1) →
  DictionaryGet d (field_path failing) = Some field →
  (ConvertField failing field output1).1 = false →
  JSONValueConverter_Convert (before ++ failing :: after)%list value output
  = (false, (ConvertField failing field output1).2).
Proof.
  unfold JSONValueConverter_Convert. intros -> Hbefore Hget Hfail.
  rewrite JSONValueConverter_loop_app, Hbefore. simpl.
  by rewrite Hget, Hfail.
Qed.

Lemma Repeated_loop_seq {Element : Type} (new_element : Element)
    (convert : BaseValue → Element → bool * Element)
    (l : list BaseValue) (n i : nat) (field : list Element) :
  i + n = length l →
  Repeated_loop new_element convert l (seq i n) field
  = convert_elements new_element convert (drop i l) field.
Proof.
  revert i field. induction n as [|n IH]; intros i field Hlen; simpl.
  - by rewrite drop_ge by lia.
  - destruct (lookup_lt_is_Some_2 l i) as [element Hel]; [lia|].
    rewrite Hel, (drop_S _ _ _ Hel). simpl.
    destruct (convert element new_element) as [[] e]; simpl; [|done].
    apply IH. lia.
Qed.

Lemma Repeated_Convert_elements {Element : Type} (new_element : Element)
    (convert : BaseValue → Element → bool * Element)
    (value : BaseValue) (field : list Element) :
  Repeated_Convert new_element convert value field
  = match GetAsList value with
    | None => (false, field)
    | Some l => convert_elements new_element convert l field
    end.
Proof.
  unfold Repeated_Convert. destruct (GetAsList value) as [l|]; [|done].
  by rewrite Repeated_loop_seq.
Qed.

Lemma convert_elements_true {Element : Type} (new_element : Element)
    (convert : BaseValue → Element → bool * Element)
    (l : list BaseValue) (field field' : list Element) :
  convert_elements new_element convert l field = (true, field')
  ↔ Forall (λ element, (convert element new_element).1 = true) l ∧
    field' = (field ++ ((λ element, (convert element new_element).2) <$> l))%list.
Proof.
  revert field. induction l as [|element l IH]; intros field; simpl.
  - rewrite (right_id_L [] app). split.
    + by intros [= <-].
    + by intros [_ ->].
  - destruct (convert element new_element) as [[] e] eqn:Hc; simpl.
    + rewrite IH, Forall_cons, Hc, <-(assoc_L app). simpl. tauto.
    + rewrite Forall_cons, Hc. simpl. split; [done|]. by intros [[? _] _].
Qed.

Lemma convert_elements_false {Element : Type} (new_element : Element)
    (convert : BaseValue → Element → bool * Element)
    (l : list BaseValue) (field field' : list Element) :
  convert_elements new_element convert l field = (false, field')
  ↔ ∃ pre element post,
      l = (pre ++ element :: post)%list ∧
      Forall (λ element, (convert element new_element).1 = true) pre ∧
      (convert element new_element).1 = false ∧
      field' = (field ++ ((λ element, (convert element new_element).2) <$> pre))%list.
Proof.
  revert field. induction l as [|element l IH]; intros field; simpl.
  - split; [done|]. intros (pre & ? & ? & Hl & _). by destruct pre.
  - destruct (convert element new_element) as [[] e] eqn:Hc; simpl.
    + rewrite IH. split.
      * intros (pre & el & post & -> & Hpre & Hel & ->).
        exists (element :: pre), el, post. split_and!; [done| |done|].
        -- apply Forall_cons. by rewrite Hc.
        -- csimpl. by rewrite Hc, <-(assoc_L app).
      * intros (pre & el & post & Hl & Hpre & Hel & ->).
        destruct pre as [|p pre]; simpl in Hl; injection Hl as -> ->.
        { rewrite Hc in Hel. done. }
        exists pre, el, post. apply Forall_cons in Hpre as [_ Hpre].
        split_and!; [done..|]. csimpl. by rewrite Hc, <-(assoc_L app).
    + split.
      * intros [= <-]. exists [], element, l. split_and!; [done..| |].
        -- by rewrite Hc.
        -- csimpl. by rewrite (right_id_L [] app).
      * intros (pre & el & post & Hl & Hpre & Hel & ->).
        destruct pre as [|p pre]; simpl in Hl; injection Hl as -> ->.
        { csimpl. by rewrite (right_id_L [] app). }
        apply Forall_cons in Hpre as [Hp _]. rewrite Hc in Hp. done.
Qed.

(** X23.  The repeated converters return true exactly on a list whose elements all
    convert, each into a fresh element; the field is then what it was,
    followed by the converted elements in the order of the list.  They
    return false on a value that is no list, the field untouched, and on a
    list with an element that does not convert, the field then extended by
    the elements converted before the first such element. *)
Theorem Repeated_Convert_result {Element : Type} (new_element : Element)
    (convert : BaseValue → Element → bool * Element)
    (value : BaseValue) (field field' : list Element) :
  let converted l := (λ element, (convert element new_element).2) <$> l in
  let converts l := Forall (λ element, (convert element new_element).1 = true) l in
  (Repeated_Convert new_element convert value field = (true, field')
   ↔ ∃ l, GetAsList value = Some l ∧ converts l ∧
          field' = (field ++ converted l)%list) ∧
  (Repeated_Convert new_element convert value field = (false, field')
   ↔ (GetAsList value = None ∧ field' = field) ∨
     ∃ pre element post,
       GetAsList value = Some (pre ++ element :: post)%list ∧ converts pre ∧
       (convert element new_element).1 = false ∧
       field' = (field ++ converted pre)%list).
Proof.
  cbv zeta. rewrite Repeated_Convert_elements.
  destruct (GetAsList value) as [l|].
  - rewrite convert_elements_true, convert_elements_false. split.
    + split; [by eauto|]. by intros (? & [= <-] & ?).
    + split.
      * intros (pre & el & post & -> & ?). right. by exists pre, el, post.
      * intros [[? _]|(pre & el & post & [= ->] & ?)]; [done|].
        by exists pre, el, post.
  - split.
    + split; [done|]. by intros (? & ? & _).
    + split; [intros [= <-]; by left|].
      intros [[_ ->]|(? & ? & ? & ? & _)]; done.
Qed.

(** The three repeated converters of the header run this one loop: with the
    basic converter of the element type, with the [JSONValueConverter] of
    the nested type, and with the given function. *)
Lemma Repeated_converters {Element : Type} (new_element : Element)
    (basic : ValueConverter Element) (nested : JSONValueConverter Element)
    (convert_func : BaseValue → Element → bool * Element) :
  RepeatedValueConverter new_element basic
    = Repeated_Convert new_element basic ∧
  RepeatedMessageConverter new_element nested
    = Repeated_Convert new_element (JSONValueConverter_Convert nested) ∧
  RepeatedCustomValueConverter new_element convert_func
    = Repeated_Convert new_element convert_func.
Proof. done. Qed.

End json.

Lemma JSONValueConverter_Convert_stops_witness :
  @JSONValueConverter_Convert Json_values Message Message_converter
    (JDict [("foo", JInt 1); ("bar", JInt 2)]) (MkMessage 0 EmptyString)
  = (false, MkMessage 1 EmptyString).
Proof.
  refine (@JSONValueConverter_Convert_stops Json_values Message
            [@FieldConverter Json_values _ _ "foo" Message_foo Json_int] []
            (@FieldConverter Json_values _ _ "bar" Message_bar Json_string)
            (JDict [("foo", JInt 1); ("bar", JInt 2)]) (JInt 2)
            [("foo", JInt 1); ("bar", JInt 2)]
            (MkMessage 0 EmptyString) (MkMessage 1 EmptyString) _ _ _ _);
    reflexivity.
Defined.

Example Message_converts :
  @JSONValueConverter_Convert Json_values Message Message_converter
    (JDict [("bar", JString "x"); ("foo", JInt 7); ("baz", JNull)])
    (MkMessage 0 EmptyString)
  = (true, MkMessage 7 "x") ∧
  @JSONValueConverter_Convert Json_values Message Message_converter
    (JDict [("bar", JString "x")]) (MkMessage 3 EmptyString)
  = (true, MkMessage 3 "x") ∧
  @JSONValueConverter_Convert Json_values Message Message_converter
    (JList []) (MkMessage 3 EmptyString)
  = (false, MkMessage 3 EmptyString).
Proof. by split_and!. Qed.
